(** * Offering-System: the offer store, per-user enablement, eligibility
    and best-offer selection of [main.go], embedded in Rocq.

    The Go program keeps one package-level [map[string]*Offer].  Every
    pointer stored in it comes from a fresh local variable of
    [createOfferHandler] and every [EnabledFor] map from one JSON decoding,
    so no two keys share an offer or an enablement map: the store is
    modelled by value, as a finite map from keys to offers.  Handlers are
    functions from the store to a reply and the next store. *)

From Stdlib Require Import ZArith Lia SpecFloat.
From stdpp Require Import base option list gmap strings fin_maps.

Open Scope string_scope.
Open Scope list_scope.

(** ** [float64]

    IEEE 754 binary64 values, in the Standard Library's specification type
    (finite values as sign, mantissa and exponent; zeros, infinities, NaN).
    The program only compares them. *)
Module Float64.

Definition t := spec_float.

(** Go's [x > y]: false as soon as one side is NaN. *)
Definition gt (x y : t) : bool := SFltb y x.

(** Go's [x >= y]. *)
Definition ge (x y : t) : bool := SFleb y x.

Definition is_nan (x : t) : bool :=
  match x with S754_nan => true | _ => false end.

(** The binary64 value of the integer [z] (round to nearest even). *)
Definition of_Z (z : Z) : t := binary_normalize 53 1024 z 0 false.

End Float64.

(** ** [map[string]bool]

    A Go map is a reference that may be nil.  Reading a nil map, or a key
    that has no entry, gives the zero value; assigning into a nil map
    panics. *)
Module GoMap.

Inductive t :=
| Nil
| Map (m : gmap string bool).

(** [m[k]] as an expression. *)
Definition index (m : t) (k : string) : bool :=
  match m with
  | Nil => false
  | Map g => default false (g !! k)
  end.

(** The entry stored for [k], if any ([v, ok := m[k]]). *)
Definition entry (m : t) (k : string) : option bool :=
  match m with
  | Nil => None
  | Map g => g !! k
  end.

(** [m[k] = v]; [None] is the panic "assignment to entry in nil map". *)
Definition assign (m : t) (k : string) (v : bool) : option t :=
  match m with
  | Nil => None
  | Map g => Some (Map (<[k := v]> g))
  end.

End GoMap.

(** ** The two structs.  Go's [int] is kept as [Z]: the program compares
    amounts and never does arithmetic on them, so nothing can wrap. *)
Module Transaction.

Record t := mk {
  TxnID : string;
  CustomerID : string;
  Amount : Z;
  MerchantID : string;
  MerchantCategory : string;
  PostEntryMode : string;
  Timestamp : Z
}.

End Transaction.

Module Offer.

Record t := mk {
  ID : string;
  Name : string;
  Description : string;
  RewardType : string;
  Outcome : Float64.t;
  MinAmount : Z;
  MinMilestone : Z;
  Details : string;
  EnabledFor : GoMap.t;
  MerchantCategory : string
}.

Definition with_EnabledFor (m : GoMap.t) (o : t) : t :=
  mk (ID o) (Name o) (Description o) (RewardType o) (Outcome o)
     (MinAmount o) (MinMilestone o) (Details o) m (MerchantCategory o).

Definition with_Outcome (v : Float64.t) (o : t) : t :=
  mk (ID o) (Name o) (Description o) (RewardType o) v
     (MinAmount o) (MinMilestone o) (Details o) (EnabledFor o)
     (MerchantCategory o).

(** [func (o *Offer) EnableForUser(userID string)]: the offer after the
    call, or [None] when the assignment panics. *)
Definition EnableForUser (userID : string) (o : t) : option t :=
  m ← GoMap.assign (EnabledFor o) userID true;
  Some (with_EnabledFor m o).

(** [func (o *Offer) DisableForUser(userID string)]. *)
Definition DisableForUser (userID : string) (o : t) : option t :=
  m ← GoMap.assign (EnabledFor o) userID false;
  Some (with_EnabledFor m o).

End Offer.

(** ** Replies of the HTTP handlers *)
Inductive reply :=
| Written (status : Z) (body : string)
| Panicked.

Definition StatusOK : Z := 200.
Definition StatusBadRequest : Z := 400.
Definition StatusNotFound : Z := 404.

Definition nl : string := String (Ascii.ascii_of_nat 10) EmptyString.

(** [http.Error(w, msg, code)] *)
Definition http_Error (msg : string) (code : Z) : reply :=
  Written code (msg +:+ nl).

(** [http.NotFound(w, r)] *)
Definition http_NotFound : reply :=
  http_Error "404 page not found" StatusNotFound.

(** ** The handlers that change the store

    [offers] is the package-level map; each handler takes it and returns
    it.  A panic unwinds the handler before anything is written; the
    store is as it was, because the panicking assignment is the handler's
    only write. *)
Definition enableOfferHandler (offerName userID : string)
    (offers : gmap string Offer.t) : reply * gmap string Offer.t :=
  match offers !! offerName with
  | None => (http_NotFound, offers)
  | Some offer =>
      match Offer.EnableForUser userID offer with
      | None => (Panicked, offers)
      | Some offer' =>
          (Written StatusOK
             ("Offer '" +:+ offerName +:+ "' enabled for user '" +:+ userID
                +:+ "'" +:+ nl),
           <[offerName := offer']> offers)
      end
  end.

Definition disableOfferHandler (offerName userID : string)
    (offers : gmap string Offer.t) : reply * gmap string Offer.t :=
  match offers !! offerName with
  | None => (http_NotFound, offers)
  | Some offer =>
      match Offer.DisableForUser userID offer with
      | None => (Panicked, offers)
      | Some offer' =>
          (Written StatusOK
             ("Offer '" +:+ offerName +:+ "' disabled for user '" +:+ userID
                +:+ "'" +:+ nl),
           <[offerName := offer']> offers)
      end
  end.

(** [createOfferHandler]: [body] is what [json.NewDecoder(r.Body).Decode]
    left in the fresh [offer] variable, [None] when it returned an error. *)
Definition createOfferHandler (body : option Offer.t)
    (offers : gmap string Offer.t) : reply * gmap string Offer.t :=
  match body with
  | None => (http_Error "Invalid offer data" StatusBadRequest, offers)
  | Some offer =>
      (Written StatusOK "Offer created", <[Offer.ID offer := offer]> offers)
  end.

(** ** Eligibility and selection *)
Definition isOfferApplicable (transaction : Transaction.t) (offer : Offer.t)
    : bool :=
  (Offer.MinAmount offer <=? Transaction.Amount transaction)%Z
  && bool_decide
       (Transaction.MerchantCategory transaction = Offer.MerchantCategory offer)
  && GoMap.index (Offer.EnabledFor offer) (Transaction.CustomerID transaction).

(** One iteration of the [for _, offer := range offers] loop;
    [bestOffer] is [None] while the pointer is nil. *)
Definition bestOffer_step (transaction : Transaction.t)
    (bestOffer : option Offer.t) (offer : Offer.t) : option Offer.t :=
  if isOfferApplicable transaction offer then
    match bestOffer with
    | None => Some offer
    | Some best =>
        if Float64.gt (Offer.Outcome offer) (Offer.Outcome best)
        then Some offer
        else bestOffer
    end
  else bestOffer.

(** Go leaves the order of [range] over a map unspecified, and it changes
    from one loop to the next.  [order] is the sequence of offers one run of
    the loop visits; [ranges offers order] says it is a possible one: every
    entry of the map once. *)
Definition ranges (offers : gmap string Offer.t) (order : list Offer.t)
    : Prop :=
  order ≡ₚ (map_to_list offers).*2.

Definition no_applicable_offer : string := "no applicable offer found".

Definition ApplyBestOfferForTransaction (transaction : Transaction.t)
    (order : list Offer.t) : Offer.t + string :=
  match fold_left (bestOffer_step transaction) order None with
  | Some bestOffer => inl bestOffer
  | None => inr no_applicable_offer
  end.

(** [createTransactionHandler]; it never writes the store. *)
Definition createTransactionHandler (body : option Transaction.t)
    (order : list Offer.t) : reply :=
  match body with
  | None => http_Error "Invalid transaction data" StatusBadRequest
  | Some transaction =>
      match ApplyBestOfferForTransaction transaction order with
      | inr _ => http_Error "No applicable offer found" StatusNotFound
      | inl _ => Written StatusOK "Transaction processed"
      end
  end.

(** What the loop has established when it has visited [order] and holds
    [bestOffer]: nil while nothing applicable was seen; else the visited
    sequence splits around the held offer, which beats every applicable
    offer before it and is not beaten by any after it. *)
Definition loop_inv (transaction : Transaction.t) (order : list Offer.t)
    (bestOffer : option Offer.t) : Prop :=
  match bestOffer with
  | None => ∀ o, o ∈ order → isOfferApplicable transaction o = false
  | Some best =>
      ∃ before after,
        order = before ++ best :: after ∧
        isOfferApplicable transaction best = true ∧
        (∀ o, o ∈ before → isOfferApplicable transaction o = true →
           Float64.gt (Offer.Outcome best) (Offer.Outcome o) = true) ∧
        (∀ o, o ∈ after → isOfferApplicable transaction o = true →
           Float64.ge (Offer.Outcome best) (Offer.Outcome o) = true)
  end.

(** Every outcome held in the store is a number.  Offers enter the store
    through [json.Decode] only, and a JSON number is never NaN. *)
Definition outcomes_are_numbers (offers : gmap string Offer.t) : Prop :=
  map_Forall (λ _ o, Float64.is_nan (Offer.Outcome o) = false) offers.

(** [o'] is [o] in every field but [EnabledFor], and there in every
    entry but the one of [user]. *)
Definition same_but_entry (user : string) (o o' : Offer.t) : Prop :=
  Offer.ID o' = Offer.ID o ∧
  Offer.Name o' = Offer.Name o ∧
  Offer.Description o' = Offer.Description o ∧
  Offer.RewardType o' = Offer.RewardType o ∧
  Offer.Outcome o' = Offer.Outcome o ∧
  Offer.MinAmount o' = Offer.MinAmount o ∧
  Offer.MinMilestone o' = Offer.MinMilestone o ∧
  Offer.Details o' = Offer.Details o ∧
  Offer.MerchantCategory o' = Offer.MerchantCategory o ∧
  ∀ u, u ≠ user →
       GoMap.entry (Offer.EnabledFor o') u = GoMap.entry (Offer.EnabledFor o) u.

(** ** The rest of the server *)

(** [offersDetailsHandler]: the slice [allOffers] it hands to the JSON
    encoder.  It starts from an empty slice and appends a copy of every
    offer the loop visits; the store is only read. *)
Definition offersDetailsHandler (order : list Offer.t) : list Offer.t :=
  fold_left (λ allOffers offer, allOffers ++ [offer]) order [].

(** The five routes [main] registers, each with what the router and the
    JSON decoder hand to its handler. *)
Inductive request :=
| PostEnable (offerName userID : string)
| PostDisable (offerName userID : string)
| GetOffers
| PostCreateOffer (body : option Offer.t)
| PostCreateTransaction (body : option Transaction.t).

(** The store a request leaves behind.  [offersDetailsHandler] and
    [createTransactionHandler] have no assignment to the map or through
    one of its pointers. *)
Definition handle (offers : gmap string Offer.t) (r : request)
    : gmap string Offer.t :=
  match r with
  | PostEnable offerName userID =>
      (enableOfferHandler offerName userID offers).2
  | PostDisable offerName userID =>
      (disableOfferHandler offerName userID offers).2
  | PostCreateOffer body => (createOfferHandler body offers).2
  | GetOffers => offers
  | PostCreateTransaction _ => offers
  end.

(** The store after a sequence of requests, handled one after another. *)
Definition serve_from (offers : gmap string Offer.t) (requests : list request)
    : gmap string Offer.t :=
  fold_left handle requests offers.

(** [main] starts the server on [make(map[string]*Offer)]. *)
Definition serve (requests : list request) : gmap string Offer.t :=
  serve_from ∅ requests.

(** The key a request stores an offer under: the identifier of the
    payload of a create that decoded. *)
Definition created_ID (r : request) : option string :=
  match r with
  | PostCreateOffer (Some offer) => Some (Offer.ID offer)
  | _ => None
  end.

Definition created_IDs (requests : list request) : gset string :=
  list_to_set (omap created_ID requests).

(** The offer and user whose flag a request assigns. *)
Definition flag_of (r : request) : option (string * string) :=
  match r with
  | PostEnable offerName userID => Some (offerName, userID)
  | PostDisable offerName userID => Some (offerName, userID)
  | _ => None
  end.

(** One offer after the assignment of [v] to the flag of [userID]; the
    offer is as it was when the assignment panics. *)
Definition flag_offer (v : bool) (userID : string) (offer : Offer.t)
    : Offer.t :=
  match GoMap.assign (Offer.EnabledFor offer) userID v with
  | None => offer
  | Some m => Offer.with_EnabledFor m offer
  end.

(** What [enableOfferHandler] ([v] true) and [disableOfferHandler] ([v]
    false) have in common, as a function on the store: assign [v] to the
    flag of [userID] on the offer under [offerName], if there is such an
    offer and the assignment does not panic. *)
Definition set_flag (v : bool) (offerName userID : string)
    (offers : gmap string Offer.t) : gmap string Offer.t :=
  match offers !! offerName with
  | None => offers
  | Some offer =>
      match GoMap.assign (Offer.EnabledFor offer) userID v with
      | None => offers
      | Some m => <[offerName := Offer.with_EnabledFor m offer]> offers
      end
  end.

(** Every offer is stored under its own identifier. *)
Definition keys_are_IDs (offers : gmap string Offer.t) : Prop :=
  map_Forall (λ k o, Offer.ID o = k) offers.

(** Every offer of the store has an allocated enablement map. *)
Definition maps_allocated (offers : gmap string Offer.t) : Prop :=
  map_Forall (λ _ o, Offer.EnabledFor o ≠ GoMap.Nil) offers.

(** What [isOfferApplicable] reads of a transaction and of an offer. *)
Definition same_for_eligibility_txn (t t' : Transaction.t) : Prop :=
  Transaction.Amount t = Transaction.Amount t' ∧
  Transaction.MerchantCategory t = Transaction.MerchantCategory t' ∧
  Transaction.CustomerID t = Transaction.CustomerID t'.

Definition same_for_eligibility_offer (customer : string) (o o' : Offer.t)
    : Prop :=
  Offer.MinAmount o = Offer.MinAmount o' ∧
  Offer.MerchantCategory o = Offer.MerchantCategory o' ∧
  GoMap.index (Offer.EnabledFor o) customer
  = GoMap.index (Offer.EnabledFor o') customer.

(** ** Sample data: the scenario of two grocery offers for user [u1] *)
Definition u1_enabled : GoMap.t := GoMap.Map {["u1" := true]}.

Definition offerA : Offer.t :=
  Offer.mk "A" "Offer A" EmptyString "cashback" (Float64.of_Z 5) 100 0 EmptyString u1_enabled
    "grocery".

Definition offerB : Offer.t :=
  Offer.mk "B" "Offer B" EmptyString "cashback" (Float64.of_Z 8) 50 0 EmptyString u1_enabled
    "grocery".

(** The offer [json.Decode] yields for the body [{"id":"A"}]: every absent
    field keeps its zero value, and the zero value of a map is nil. *)
Definition offer_without_map : Offer.t :=
  Offer.mk "A" EmptyString EmptyString EmptyString (S754_zero false) 0 0 EmptyString GoMap.Nil EmptyString.

(** The store after [POST /create-offer] with that body alone. *)
Definition store_without_map : gmap string Offer.t :=
  {["A" := offer_without_map]}.

(** An offer whose identifier is the empty string. *)
Definition nameless_offer : Offer.t :=
  Offer.mk EmptyString "Nameless" EmptyString "points" (Float64.of_Z 1) 10 0 EmptyString u1_enabled
    "fuel".

Definition two_offers : gmap string Offer.t :=
  <["B" := offerB]> (<["A" := offerA]> ∅).

Definition txn (customer : string) (amount : Z) (category : string)
    : Transaction.t :=
  Transaction.mk "t1" customer amount "m1" category "chip" 0.

(** * Theorems *)

(** ** Order of [float64] values *)
Section Float64_order.
Import Float64.

Ltac cmp_cases :=
  repeat match goal with
  | |- context [Z.compare ?a ?b] => destruct (Z.compare_spec a b)
  | H : context [Z.compare ?a ?b] |- _ => destruct (Z.compare_spec a b)
  | |- context [Pos.compare_cont Eq ?a ?b] =>
      change (Pos.compare_cont Eq a b) with (Pos.compare a b);
      destruct (Pos.compare_spec a b)
  | H : context [Pos.compare_cont Eq ?a ?b] |- _ =>
      change (Pos.compare_cont Eq a b) with (Pos.compare a b) in H;
      destruct (Pos.compare_spec a b)
  end.

Ltac float_order :=
  unfold gt, ge, SFltb, SFleb, SFcompare, is_nan in *;
  repeat match goal with
  | x : t |- _ => destruct x
  | s : bool |- _ => destruct s
  end;
  try done; cmp_cases; simpl in *; try done; try lia.

(** Among numbers the order is total: [not (x > y)] is [y >= x]. *)
Lemma gt_false_ge x y :
  is_nan x = false → is_nan y = false → gt x y = false → ge y x = true.
Proof. float_order. Qed.

Lemma gt_ge x y : gt x y = true → ge x y = true.
Proof. float_order. Qed.

Lemma gt_not_ge x y : gt x y = true → ge y x = false.
Proof. float_order. Qed.

Lemma gt_ge_trans x y z : gt x y = true → ge y z = true → gt x z = true.
Proof. float_order. Qed.

Lemma gt_trans x y z : gt x y = true → gt y z = true → gt x z = true.
Proof. float_order. Qed.

Lemma ge_refl x : is_nan x = false → ge x x = true.
Proof.
  destruct x as [s|s| |s m e]; try done; try by destruct s.
  intros _. unfold ge, SFleb, SFcompare.
  rewrite Z.compare_refl.
  change (Pos.compare_cont Eq m m) with (Pos.compare m m).
  rewrite Pos.compare_refl. by destruct s.
Qed.

(** An [x] that does not beat [y] does not beat a [z] above [y] either,
    whether or not [x] is a number. *)
Lemma gt_false_trans x y z : gt x y = false → gt z y = true → gt x z = false.
Proof. float_order. Qed.

Lemma gt_asym x y : gt x y = true → gt y x = false.
Proof. float_order. Qed.

Lemma gt_irrefl x : gt x x = false.
Proof.
  destruct (gt x x) eqn:H; [|done]. by rewrite (gt_asym _ _ H) in H.
Qed.

(** A comparison that holds has two numbers on its sides. *)
Lemma gt_not_nan x y : gt x y = true → is_nan x = false ∧ is_nan y = false.
Proof. float_order. Qed.

(** With a NaN on either side every comparison is false. *)
Lemma gt_nan_l y : gt S754_nan y = false.
Proof. by destruct y. Qed.

Lemma gt_nan_r x : gt x S754_nan = false.
Proof. by destruct x. Qed.

End Float64_order.

(** ** Go maps *)
Section GoMap_facts.
Import GoMap.

Lemma index_entry m k : index m k = default false (entry m k).
Proof. by destruct m. Qed.

Lemma index_no_entry m k : entry m k = None → index m k = false.
Proof. intros H. by rewrite index_entry, H. Qed.

Lemma assign_Some m k v m' :
  assign m k v = Some m' ↔ ∃ g, m = Map g ∧ m' = Map (<[k := v]> g).
Proof.
  destruct m as [|g]; simpl; split.
  - done.
  - by intros (g & ? & _).
  - intros [= <-]. by exists g.
  - intros (g' & [= <-] & ->). done.
Qed.

Lemma assign_None m k v : assign m k v = None ↔ m = Nil.
Proof. by destruct m. Qed.

Lemma entry_assign_eq m k v m' : assign m k v = Some m' → entry m' k = Some v.
Proof.
  intros (g & -> & ->)%assign_Some. simpl. apply lookup_insert_eq.
Qed.

Lemma entry_assign_ne m k v m' j :
  assign m k v = Some m' → j ≠ k → entry m' j = entry m j.
Proof.
  intros (g & -> & ->)%assign_Some Hne. simpl. by apply lookup_insert_ne.
Qed.

Lemma index_assign_eq m k v m' : assign m k v = Some m' → index m' k = v.
Proof. intros H. by rewrite index_entry, (entry_assign_eq _ _ _ _ H). Qed.

Lemma assign_twice m k v m' : assign m k v = Some m' → assign m' k v = Some m'.
Proof.
  intros (g & -> & ->)%assign_Some. simpl. by rewrite insert_insert_eq.
Qed.

End GoMap_facts.

(** ** The iteration order of the store *)
Section ranges_facts.
Implicit Types (offers : gmap string Offer.t) (order : list Offer.t).

Lemma ranges_map_to_list offers : ranges offers (map_to_list offers).*2.
Proof. by unfold ranges. Qed.

Lemma ranges_elem_of offers order o :
  ranges offers order → o ∈ order ↔ ∃ k, offers !! k = Some o.
Proof.
  unfold ranges. intros ->. rewrite list_elem_of_fmap. split.
  - intros ([k o'] & -> & H%elem_of_map_to_list). by exists k.
  - intros [k H]. exists (k, o). split; [done|].
    by apply elem_of_map_to_list.
Qed.

End ranges_facts.

(** ** The selection loop *)
Section selection.
Variable transaction : Transaction.t.

Abbreviation applicable := (isOfferApplicable transaction).
Abbreviation loop := (fold_left (bestOffer_step transaction)).

Lemma in_snoc_last (order : list Offer.t) offer : offer ∈ order ++ [offer].
Proof. apply elem_of_app. right. by apply list_elem_of_singleton. Qed.

Lemma in_snoc_front (order : list Offer.t) offer o :
  o ∈ order → o ∈ order ++ [offer].
Proof. intros Ho. apply elem_of_app. by left. Qed.

Lemma loop_snoc order offer :
  loop (order ++ [offer]) None
  = bestOffer_step transaction (loop order None) offer.
Proof. by rewrite fold_left_app. Qed.

Lemma loop_inv_step order bestOffer offer :
  (applicable offer = true → Float64.is_nan (Offer.Outcome offer) = false) →
  (∀ o, o ∈ order → applicable o = true →
     Float64.is_nan (Offer.Outcome o) = false) →
  loop_inv transaction order bestOffer →
  loop_inv transaction (order ++ [offer]) (bestOffer_step transaction bestOffer offer).
Proof.
  intros Hnum Hnums Hinv. unfold bestOffer_step.
  destruct (applicable offer) eqn:Happ.
  - destruct bestOffer as [best|]; simpl in Hinv.
    + destruct Hinv as (before & after & -> & Hbest & Hlt & Hge).
      destruct (Float64.gt _ _) eqn:Hgt; simpl.
      * exists (before ++ best :: after), []. split_and!; [done..| |].
        -- intros o [Ho|[->|Ho]%elem_of_cons]%elem_of_app Hoapp; [|done|].
           ++ eapply gt_trans; eauto.
           ++ eapply gt_ge_trans; eauto.
        -- intros o Ho. by apply elem_of_nil in Ho.
      * exists before, (after ++ [offer]). split_and!; [|done..|].
        -- by rewrite <-app_assoc.
        -- intros o [Ho| ->%list_elem_of_singleton]%elem_of_app Hoapp;
             [by apply Hge|].
           apply gt_false_ge; [by apply Hnum| |done].
           apply Hnums; [|done]. apply elem_of_app. right. by left.
    + exists order, []. split_and!; [done..| |].
      * intros o Ho Hoapp. by rewrite Hinv in Hoapp.
      * intros o Ho. by apply elem_of_nil in Ho.
  - destruct bestOffer as [best|]; simpl in *.
    + destruct Hinv as (before & after & -> & Hbest & Hlt & Hge).
      exists before, (after ++ [offer]). split_and!; [|done..|].
      * by rewrite <-app_assoc.
      * intros o [Ho| ->%list_elem_of_singleton]%elem_of_app Hoapp;
          [by apply Hge|congruence].
    + intros o [Ho| ->%list_elem_of_singleton]%elem_of_app; auto.
Qed.

Lemma loop_inv_holds order :
  (∀ o, o ∈ order → applicable o = true →
     Float64.is_nan (Offer.Outcome o) = false) →
  loop_inv transaction order (loop order None).
Proof.
  induction order as [|offer order IH] using rev_ind; intros Hnums.
  - simpl. intros o Ho. by apply elem_of_nil in Ho.
  - rewrite loop_snoc. apply loop_inv_step.
    + intros Happ. apply Hnums; [apply in_snoc_last|done].
    + intros o Ho. apply Hnums. by apply in_snoc_front.
    + apply IH. intros o Ho. apply Hnums. by apply in_snoc_front.
Qed.

(** The loop ends with nil exactly when nothing it visited is
    applicable; this needs nothing about the outcomes. *)
Lemma loop_None order :
  loop order None = None ↔ ∀ o, o ∈ order → applicable o = false.
Proof.
  induction order as [|offer order IH] using rev_ind.
  - split; [|done]. intros _ o Ho. by apply elem_of_nil in Ho.
  - rewrite loop_snoc. unfold bestOffer_step at 1.
    destruct (applicable offer) eqn:Happ.
    + split.
      * destruct (loop order None); [|done]. by destruct (Float64.gt _ _).
      * intros H. rewrite H in Happ; [done|apply in_snoc_last].
    + rewrite IH. split.
      * intros H o [Ho| ->%list_elem_of_singleton]%elem_of_app; auto.
      * intros H o Ho. apply H. by apply in_snoc_front.
Qed.

(** The offer the loop holds was visited and is applicable. *)
Lemma loop_Some order best :
  loop order None = Some best → best ∈ order ∧ applicable best = true.
Proof.
  revert best. induction order as [|offer order IH] using rev_ind;
    intros best; [done|].
  rewrite loop_snoc. unfold bestOffer_step at 1.
  destruct (applicable offer) eqn:Happ.
  - destruct (loop order None) as [held|].
    + destruct (Float64.gt _ _).
      * intros [= <-]. split; [apply in_snoc_last|done].
      * intros [= <-]. destruct (IH held eq_refl). split; [|done].
        by apply in_snoc_front.
    + intros [= <-]. split; [apply in_snoc_last|done].
  - intros [Hin ?]%IH. split; [|done]. by apply in_snoc_front.
Qed.

(** No applicable offer the loop visited beats the one it holds; this
    holds for all outcomes, NaN included. *)
Lemma loop_unbeaten order best :
  loop order None = Some best →
  ∀ o, o ∈ order → applicable o = true →
       Float64.gt (Offer.Outcome o) (Offer.Outcome best) = false.
Proof.
  revert best. induction order as [|offer order IH] using rev_ind;
    intros best; [done|].
  rewrite loop_snoc. unfold bestOffer_step at 1.
  destruct (applicable offer) eqn:Happ.
  - destruct (loop order None) as [held|] eqn:Hheld.
    + destruct (Float64.gt _ _) eqn:Hgt; intros [= <-] o Ho Hoapp;
        apply elem_of_app in Ho as [Ho| ->%list_elem_of_singleton].
      * eapply gt_false_trans; [by apply (IH held)|done].
      * apply gt_irrefl.
      * by apply (IH held).
      * done.
    + pose proof (proj1 (loop_None order) Hheld) as Hnone.
      intros [= <-] o [Ho| ->%list_elem_of_singleton]%elem_of_app Hoapp.
      * by rewrite (Hnone o Ho) in Hoapp.
      * apply gt_irrefl.
  - intros Hloop o [Ho| ->%list_elem_of_singleton]%elem_of_app Hoapp.
    + by apply IH.
    + congruence.
Qed.

End selection.

(** ** Eligibility *)

(** C1.  [isOfferApplicable] returns true exactly when the three
    conditions hold together: the amount is at least the offer's minimum,
    the two merchant categories are the same string, and the offer's
    enablement flag of the customer reads true.  The bound is inclusive:
    an amount equal to the minimum passes the first test, an amount one
    below it makes the offer inapplicable; and two categories that differ
    in any character, letter case included, make it inapplicable. *)
Theorem isOfferApplicable_iff (transaction : Transaction.t) (offer : Offer.t) :
  (isOfferApplicable transaction offer = true ↔
     (Offer.MinAmount offer ≤ Transaction.Amount transaction)%Z ∧
     Transaction.MerchantCategory transaction = Offer.MerchantCategory offer ∧
     GoMap.index (Offer.EnabledFor offer)
       (Transaction.CustomerID transaction) = true) ∧
  (Transaction.Amount transaction = Offer.MinAmount offer →
     isOfferApplicable transaction offer
     = bool_decide (Transaction.MerchantCategory transaction
                    = Offer.MerchantCategory offer)
       && GoMap.index (Offer.EnabledFor offer)
            (Transaction.CustomerID transaction)) ∧
  (Transaction.Amount transaction = (Offer.MinAmount offer - 1)%Z →
     isOfferApplicable transaction offer = false) ∧
  (Transaction.MerchantCategory transaction ≠ Offer.MerchantCategory offer →
     isOfferApplicable transaction offer = false).
Proof.
  unfold isOfferApplicable. split_and!.
  - rewrite !andb_true_iff, Z.leb_le, bool_decide_eq_true. tauto.
  - intros ->. by rewrite Z.leb_refl.
  - intros ->. replace (_ <=? _)%Z with false; [done|]. symmetry.
    apply Z.leb_gt. lia.
  - intros Hne. rewrite (bool_decide_eq_false_2 _ Hne).
    by rewrite andb_false_r.
Qed.

(** The two boundary amounts and a case variant of the category, on
    offer [A] (minimum 100, category "grocery", enabled for [u1]). *)
Example isOfferApplicable_boundaries :
  isOfferApplicable (txn "u1" 100 "grocery") offerA = true ∧
  isOfferApplicable (txn "u1" 99 "grocery") offerA = false ∧
  isOfferApplicable (txn "u1" 100 "Grocery") offerA = false ∧
  isOfferApplicable (txn "u2" 100 "grocery") offerA = false.
Proof. by vm_compute. Qed.

(** ** Selection *)

(** C2.  When the store holds an applicable offer, the selection returns
    an offer of the store that is applicable and whose outcome is greater
    than or equal to that of every applicable offer; and every applicable
    offer the loop met before it has a strictly smaller outcome, so among
    the applicable offers that share the greatest outcome it is the one met
    first.  Outcomes are numbers, as JSON decoding makes them. *)
Theorem ApplyBestOfferForTransaction_best
    (transaction : Transaction.t) (offers : gmap string Offer.t)
    (order : list Offer.t) :
  ranges offers order →
  outcomes_are_numbers offers →
  (∃ k o, offers !! k = Some o ∧ isOfferApplicable transaction o = true) →
  ∃ best before after,
    ApplyBestOfferForTransaction transaction order = inl best ∧
    order = before ++ best :: after ∧
    (∃ k, offers !! k = Some best) ∧
    isOfferApplicable transaction best = true ∧
    (∀ k o, offers !! k = Some o → isOfferApplicable transaction o = true →
       Float64.ge (Offer.Outcome best) (Offer.Outcome o) = true) ∧
    (∀ o, o ∈ before → isOfferApplicable transaction o = true →
       Float64.gt (Offer.Outcome best) (Offer.Outcome o) = true).
Proof.
  intros Hrange Hnum (k0 & o0 & Hk0 & Happ0).
  assert (Hnums : ∀ o, o ∈ order → Float64.is_nan (Offer.Outcome o) = false).
  { intros o [k Hk]%(ranges_elem_of _ _ _ Hrange). by apply (Hnum k o). }
  pose proof (loop_inv_holds transaction order) as Hinv.
  unfold ApplyBestOfferForTransaction.
  destruct (fold_left _ order None) as [best|] eqn:Hloop.
  - destruct Hinv as (before & after & Horder & Hbest & Hlt & Hge); [by auto|].
    assert (best ∈ order) as Hin.
    { rewrite Horder. apply elem_of_app. right. by left. }
    exists best, before, after. split_and!; [done..| |done| |done].
    + by apply (ranges_elem_of _ _ _ Hrange).
    + intros k o Hk Happ.
      assert (o ∈ order) as Ho by (apply (ranges_elem_of _ _ _ Hrange); eauto).
      rewrite Horder in Ho.
      apply elem_of_app in Ho as [Ho|[->|Ho]%elem_of_cons].
      * apply gt_ge. by apply Hlt.
      * apply ge_refl. by apply Hnums.
      * by apply Hge.
  - pose proof (proj1 (loop_None _ _) Hloop) as Hnone.
    rewrite Hnone in Happ0; [done|].
    apply (ranges_elem_of _ _ _ Hrange). eauto.
Qed.

Lemma ApplyBestOfferForTransaction_best_witness :
  ∃ best before after,
    ApplyBestOfferForTransaction (txn "u1" 120 "grocery")
      (map_to_list two_offers).*2 = inl best ∧
    (map_to_list two_offers).*2 = before ++ best :: after ∧
    (∃ k, two_offers !! k = Some best) ∧
    isOfferApplicable (txn "u1" 120 "grocery") best = true ∧
    (∀ k o, two_offers !! k = Some o →
       isOfferApplicable (txn "u1" 120 "grocery") o = true →
       Float64.ge (Offer.Outcome best) (Offer.Outcome o) = true) ∧
    (∀ o, o ∈ before → isOfferApplicable (txn "u1" 120 "grocery") o = true →
       Float64.gt (Offer.Outcome best) (Offer.Outcome o) = true).
Proof.
  apply (ApplyBestOfferForTransaction_best _ two_offers).
  - unfold ranges. reflexivity.
  - unfold outcomes_are_numbers, two_offers.
    repeat (apply map_Forall_insert_2; [reflexivity|]).
    apply map_Forall_empty.
  - exists "A", offerA. split; vm_compute; reflexivity.
Defined.

(** The scenarios of the two grocery offers: with 120 both are eligible
    and [B] wins on its outcome; with 60 only [B] is eligible; a customer
    enabled for nothing gets no offer.  The same in both visiting orders. *)
Example ApplyBestOfferForTransaction_scenarios :
  ApplyBestOfferForTransaction (txn "u1" 120 "grocery") [offerA; offerB]
    = inl offerB ∧
  ApplyBestOfferForTransaction (txn "u1" 120 "grocery") [offerB; offerA]
    = inl offerB ∧
  ApplyBestOfferForTransaction (txn "u1" 60 "grocery") [offerA; offerB]
    = inl offerB ∧
  ApplyBestOfferForTransaction (txn "u1" 60 "grocery") [offerB; offerA]
    = inl offerB ∧
  ApplyBestOfferForTransaction (txn "u9" 120 "grocery") [offerA; offerB]
    = inr no_applicable_offer.
Proof. by vm_compute. Qed.

(** Two applicable offers with the same outcome: the one the loop meets
    first is returned, so the result follows the visiting order. *)
Example ApplyBestOfferForTransaction_tie :
  let A8 := Offer.with_Outcome (Float64.of_Z 8) offerA in
  ApplyBestOfferForTransaction (txn "u1" 120 "grocery") [A8; offerB]
    = inl A8 ∧
  ApplyBestOfferForTransaction (txn "u1" 120 "grocery") [offerB; A8]
    = inl offerB.
Proof. by vm_compute. Qed.

(** Why outcomes have to be numbers for the greatest outcome to win: a
    NaN met first is never replaced, since [x > NaN] is false for all
    [x], and it is not greater than or equal to anything. *)
Example ApplyBestOfferForTransaction_nan :
  let N := Offer.with_Outcome S754_nan offerA in
  ApplyBestOfferForTransaction (txn "u1" 120 "grocery") [N; offerB] = inl N ∧
  Float64.ge (Offer.Outcome N) (Offer.Outcome offerB) = false.
Proof. by vm_compute. Qed.

(** C3.  The selection returns the error "no applicable offer found"
    exactly when no offer of the store is applicable to the transaction;
    in every other case it returns an offer and no error. *)
Theorem ApplyBestOfferForTransaction_error_iff
    (transaction : Transaction.t) (offers : gmap string Offer.t)
    (order : list Offer.t) :
  ranges offers order →
  (ApplyBestOfferForTransaction transaction order = inr no_applicable_offer ↔
     ∀ k o, offers !! k = Some o → isOfferApplicable transaction o = false) ∧
  ((∃ k o, offers !! k = Some o ∧ isOfferApplicable transaction o = true) ↔
     ∃ best, ApplyBestOfferForTransaction transaction order = inl best).
Proof.
  intros Hrange. unfold ApplyBestOfferForTransaction.
  pose proof (loop_None transaction order) as Hnone.
  destruct (fold_left _ order None) as [best|] eqn:Hloop.
  - destruct (loop_Some _ _ _ Hloop) as [Hin Happ].
    apply (ranges_elem_of _ _ _ Hrange) in Hin as [k Hk].
    split; split; try done; eauto.
    intros Hall. by rewrite (Hall k best Hk) in Happ.
  - destruct Hnone as [Hnone _]. specialize (Hnone eq_refl).
    split; split; try done.
    + intros _ k o Hk. apply Hnone. apply (ranges_elem_of _ _ _ Hrange). eauto.
    + intros (k & o & Hk & Happ). rewrite Hnone in Happ; [done|].
      apply (ranges_elem_of _ _ _ Hrange). eauto.
    + by intros [best ?].
Qed.

Lemma ApplyBestOfferForTransaction_error_iff_witness :
  (ApplyBestOfferForTransaction (txn "u9" 120 "grocery")
     (map_to_list two_offers).*2 = inr no_applicable_offer ↔
     ∀ k o, two_offers !! k = Some o →
            isOfferApplicable (txn "u9" 120 "grocery") o = false) ∧
  ((∃ k o, two_offers !! k = Some o ∧
           isOfferApplicable (txn "u9" 120 "grocery") o = true) ↔
     ∃ best, ApplyBestOfferForTransaction (txn "u9" 120 "grocery")
               (map_to_list two_offers).*2 = inl best).
Proof.
  apply (ApplyBestOfferForTransaction_error_iff _ two_offers).
  unfold ranges. reflexivity.
Defined.

(** C5.  Let offer [E], stored under [k], be applicable, and let its
    outcome be set to a value [v] that is strictly greater than the outcome
    of every other offer of the store, nothing else being changed.  Then
    the selection returns [E] with that outcome, in whatever order the loop
    visits the store. *)
Theorem raised_outcome_wins
    (transaction : Transaction.t) (offers : gmap string Offer.t)
    (k : string) (E : Offer.t) (v : Float64.t) (order : list Offer.t) :
  offers !! k = Some E →
  isOfferApplicable transaction E = true →
  (∀ k' o, k' ≠ k → offers !! k' = Some o →
     Float64.gt v (Offer.Outcome o) = true) →
  ranges (<[k := Offer.with_Outcome v E]> offers) order →
  ApplyBestOfferForTransaction transaction order
  = inl (Offer.with_Outcome v E).
Proof.
  intros HE Happ Habove Hrange.
  set (E' := Offer.with_Outcome v E) in *.
  assert (isOfferApplicable transaction E' = true) as Happ' by done.
  assert (E' ∈ order) as HinE.
  { apply (ranges_elem_of _ _ _ Hrange). exists k. apply lookup_insert_eq. }
  unfold ApplyBestOfferForTransaction.
  destruct (fold_left _ order None) as [best|] eqn:Hloop.
  - f_equal.
    destruct (loop_Some _ _ _ Hloop) as [Hin _].
    apply (ranges_elem_of _ _ _ Hrange) in Hin as [k' Hk'].
    destruct (decide (k' = k)) as [->|Hne].
    + rewrite lookup_insert_eq in Hk'. congruence.
    + rewrite lookup_insert_ne in Hk' by done.
      pose proof (loop_unbeaten _ _ _ Hloop E' HinE Happ') as Hnot.
      simpl in Hnot. by rewrite (Habove k' best Hne Hk') in Hnot.
  - pose proof (proj1 (loop_None _ _) Hloop) as Hnone.
    by rewrite (Hnone E' HinE) in Happ'.
Qed.

Lemma raised_outcome_wins_witness :
  ApplyBestOfferForTransaction (txn "u1" 120 "grocery")
    (map_to_list
       (<["A" := Offer.with_Outcome (Float64.of_Z 9) offerA]> two_offers)).*2
  = inl (Offer.with_Outcome (Float64.of_Z 9) offerA).
Proof.
  apply (raised_outcome_wins _ two_offers "A" offerA (Float64.of_Z 9)).
  - reflexivity.
  - reflexivity.
  - intros k' o Hne Hk'. unfold two_offers in Hk'.
    apply lookup_insert_Some in Hk' as [[<- <-]|[_ Hk']]; [reflexivity|].
    apply lookup_insert_Some in Hk' as [[<- <-]|[_ Hk']]; [done|].
    by rewrite lookup_empty in Hk'.
  - unfold ranges. reflexivity.
Defined.

(** Raising [A] from 5 to 9 turns the result from [B] to [A], in both
    visiting orders. *)
Example raised_outcome_scenario :
  let A9 := Offer.with_Outcome (Float64.of_Z 9) offerA in
  ApplyBestOfferForTransaction (txn "u1" 120 "grocery") [offerA; offerB]
    = inl offerB ∧
  ApplyBestOfferForTransaction (txn "u1" 120 "grocery") [A9; offerB]
    = inl A9 ∧
  ApplyBestOfferForTransaction (txn "u1" 120 "grocery") [offerB; A9]
    = inl A9.
Proof. by vm_compute. Qed.

(** ** Enablement *)
Section enablement.
Implicit Types (o : Offer.t) (u : string).

Lemma EnableForUser_None u o :
  Offer.EnableForUser u o = None ↔ Offer.EnabledFor o = GoMap.Nil.
Proof. unfold Offer.EnableForUser. by destruct (Offer.EnabledFor o). Qed.

Lemma DisableForUser_None u o :
  Offer.DisableForUser u o = None ↔ Offer.EnabledFor o = GoMap.Nil.
Proof. unfold Offer.DisableForUser. by destruct (Offer.EnabledFor o). Qed.

Lemma EnableForUser_Some u o g :
  Offer.EnabledFor o = GoMap.Map g →
  Offer.EnableForUser u o
  = Some (Offer.with_EnabledFor (GoMap.Map (<[u := true]> g)) o).
Proof. unfold Offer.EnableForUser. by intros ->. Qed.

Lemma DisableForUser_Some u o g :
  Offer.EnabledFor o = GoMap.Map g →
  Offer.DisableForUser u o
  = Some (Offer.with_EnabledFor (GoMap.Map (<[u := false]> g)) o).
Proof. unfold Offer.DisableForUser. by intros ->. Qed.

(** On an offer whose enablement map was allocated, enabling makes the
    user's flag read true and a disabling that follows makes it read
    false. *)
Lemma enable_disable_round_trip u o :
  Offer.EnabledFor o ≠ GoMap.Nil →
  ∃ o1 o2,
    Offer.EnableForUser u o = Some o1 ∧
    GoMap.index (Offer.EnabledFor o1) u = true ∧
    Offer.DisableForUser u o1 = Some o2 ∧
    GoMap.index (Offer.EnabledFor o2) u = false.
Proof.
  destruct (Offer.EnabledFor o) as [|g] eqn:Hmap; [done|]. intros _.
  eexists _, _. split_and!.
  - by apply EnableForUser_Some.
  - simpl. by rewrite lookup_insert_eq.
  - by apply DisableForUser_Some.
  - simpl. by rewrite lookup_insert_eq.
Qed.

(** Disabling a user with no entry, on an allocated map: the flag reads
    false before and after, and afterwards there is an entry [false]. *)
Lemma disable_never_enabled u o :
  Offer.EnabledFor o ≠ GoMap.Nil →
  GoMap.entry (Offer.EnabledFor o) u = None →
  ∃ o', Offer.DisableForUser u o = Some o' ∧
        GoMap.index (Offer.EnabledFor o) u = false ∧
        GoMap.index (Offer.EnabledFor o') u = false ∧
        GoMap.entry (Offer.EnabledFor o') u = Some false.
Proof.
  destruct (Offer.EnabledFor o) as [|g] eqn:Hmap; [done|]. intros _ Hnone.
  eexists. split_and!.
  - by apply DisableForUser_Some.
  - simpl in *. by rewrite Hnone.
  - simpl. by rewrite lookup_insert_eq.
  - simpl. by rewrite lookup_insert_eq.
Qed.

(** A second call of the same method changes nothing more. *)
Lemma EnableForUser_idempotent u o o' :
  Offer.EnableForUser u o = Some o' → Offer.EnableForUser u o' = Some o'.
Proof.
  unfold Offer.EnableForUser. destruct o as [? ? ? ? ? ? ? ? [|g] ?]; [done|].
  simpl. intros [= <-]. simpl. by rewrite insert_insert_eq.
Qed.

Lemma DisableForUser_idempotent u o o' :
  Offer.DisableForUser u o = Some o' → Offer.DisableForUser u o' = Some o'.
Proof.
  unfold Offer.DisableForUser. destruct o as [? ? ? ? ? ? ? ? [|g] ?]; [done|].
  simpl. intros [= <-]. simpl. by rewrite insert_insert_eq.
Qed.

Lemma EnableForUser_same_but_entry u o o' :
  Offer.EnableForUser u o = Some o' → same_but_entry u o o'.
Proof.
  unfold Offer.EnableForUser. destruct o as [? ? ? ? ? ? ? ? [|g] ?]; [done|].
  simpl. intros [= <-]. unfold same_but_entry. simpl. split_and!; try done.
  intros u' Hne. by apply lookup_insert_ne.
Qed.

Lemma DisableForUser_same_but_entry u o o' :
  Offer.DisableForUser u o = Some o' → same_but_entry u o o'.
Proof.
  unfold Offer.DisableForUser. destruct o as [? ? ? ? ? ? ? ? [|g] ?]; [done|].
  simpl. intros [= <-]. unfold same_but_entry. simpl. split_and!; try done.
  intros u' Hne. by apply lookup_insert_ne.
Qed.

Lemma same_but_entry_refl u o : same_but_entry u o o.
Proof. unfold same_but_entry. by split_and!. Qed.

End enablement.

(** C4.  The round trip at an offer created without an [enabledFor]
    object: its map is nil, so [EnableForUser] panics on the assignment,
    the handler is unwound with the store as it was, and the flag of the
    user still reads false after the call to enable. *)
Theorem EnableForUser_nil_map_panics :
  createOfferHandler (Some offer_without_map) ∅
    = (Written StatusOK "Offer created", store_without_map) ∧
  Offer.EnableForUser "u1" offer_without_map = None ∧
  enableOfferHandler "A" "u1" store_without_map
    = (Panicked, store_without_map) ∧
  (∀ o, (enableOfferHandler "A" "u1" store_without_map).2 !! "A" = Some o →
        GoMap.index (Offer.EnabledFor o) "u1" = false).
Proof.
  split_and!; [by vm_compute..|].
  intros o. vm_compute. by intros [= <-].
Qed.

(** C6.  Disabling a user who was never enabled, at an offer created
    without an [enabledFor] object: the user has no entry and reads as
    disabled, [DisableForUser] panics on the nil map, and afterwards there
    is still no entry for the user, so no explicit [false] was recorded. *)
Theorem DisableForUser_nil_map_records_nothing :
  GoMap.entry (Offer.EnabledFor offer_without_map) "u1" = None ∧
  GoMap.index (Offer.EnabledFor offer_without_map) "u1" = false ∧
  Offer.DisableForUser "u1" offer_without_map = None ∧
  disableOfferHandler "A" "u1" store_without_map
    = (Panicked, store_without_map) ∧
  (∀ o, (disableOfferHandler "A" "u1" store_without_map).2 !! "A" = Some o →
        GoMap.entry (Offer.EnabledFor o) "u1" = None).
Proof.
  split_and!; [by vm_compute..|].
  intros o. vm_compute. by intros [= <-].
Qed.

(** ** The enable and disable handlers *)
Section handlers.
Implicit Types (offers : gmap string Offer.t) (offerName userID : string).

(** The reply is "not found" exactly when the store has no offer under
    the name, and then the store is returned as it was. *)
Lemma enableOfferHandler_not_found offers offerName userID :
  ((enableOfferHandler offerName userID offers).1 = http_NotFound ↔
     offers !! offerName = None) ∧
  ((enableOfferHandler offerName userID offers).1 = http_NotFound →
     (enableOfferHandler offerName userID offers).2 = offers).
Proof.
  unfold enableOfferHandler. destruct (offers !! offerName) as [o|]; [|done].
  by destruct (Offer.EnableForUser userID o).
Qed.

Lemma disableOfferHandler_not_found offers offerName userID :
  ((disableOfferHandler offerName userID offers).1 = http_NotFound ↔
     offers !! offerName = None) ∧
  ((disableOfferHandler offerName userID offers).1 = http_NotFound →
     (disableOfferHandler offerName userID offers).2 = offers).
Proof.
  unfold disableOfferHandler. destruct (offers !! offerName) as [o|]; [|done].
  by destruct (Offer.DisableForUser userID o).
Qed.

(** With an offer under the name whose enablement map was allocated, the
    reply is 200 and the offer has the user's flag set. *)
Lemma enableOfferHandler_success offers offerName userID o :
  offers !! offerName = Some o →
  Offer.EnabledFor o ≠ GoMap.Nil →
  ∃ body o',
    enableOfferHandler offerName userID offers
    = (Written StatusOK body, <[offerName := o']> offers) ∧
    Offer.EnableForUser userID o = Some o' ∧
    GoMap.index (Offer.EnabledFor o') userID = true.
Proof.
  intros Ho Hmap. unfold enableOfferHandler. rewrite Ho.
  destruct (Offer.EnabledFor o) as [|g] eqn:Hg; [done|].
  rewrite (EnableForUser_Some _ _ _ Hg). eexists _, _. split_and!; [done..|].
  simpl. by rewrite lookup_insert_eq.
Qed.

Lemma disableOfferHandler_success offers offerName userID o :
  offers !! offerName = Some o →
  Offer.EnabledFor o ≠ GoMap.Nil →
  ∃ body o',
    disableOfferHandler offerName userID offers
    = (Written StatusOK body, <[offerName := o']> offers) ∧
    Offer.DisableForUser userID o = Some o' ∧
    GoMap.index (Offer.EnabledFor o') userID = false.
Proof.
  intros Ho Hmap. unfold disableOfferHandler. rewrite Ho.
  destruct (Offer.EnabledFor o) as [|g] eqn:Hg; [done|].
  rewrite (DisableForUser_Some _ _ _ Hg). eexists _, _. split_and!; [done..|].
  simpl. by rewrite lookup_insert_eq.
Qed.

(** The handler panics exactly when the offer is there with a nil map. *)
Lemma enableOfferHandler_panics offers offerName userID :
  (enableOfferHandler offerName userID offers).1 = Panicked ↔
  ∃ o, offers !! offerName = Some o ∧ Offer.EnabledFor o = GoMap.Nil.
Proof.
  unfold enableOfferHandler. destruct (offers !! offerName) as [o|].
  - destruct (Offer.EnableForUser userID o) eqn:Hen; simpl.
    + split; [done|]. intros (o' & [= <-] & Hnil).
      apply (EnableForUser_None userID) in Hnil. congruence.
    + split; [|done]. intros _. exists o. split; [done|].
      by apply (EnableForUser_None userID).
  - split; [done|]. by intros (o & ? & _).
Qed.

(** Calling a handler a second time with the same arguments leaves the
    store as the first call left it. *)
Lemma enableOfferHandler_idempotent offers offerName userID :
  (enableOfferHandler offerName userID
     (enableOfferHandler offerName userID offers).2).2
  = (enableOfferHandler offerName userID offers).2.
Proof.
  unfold enableOfferHandler at 2 3.
  destruct (offers !! offerName) as [o|] eqn:Ho.
  - destruct (Offer.EnableForUser userID o) as [o'|] eqn:Hen; simpl.
    + unfold enableOfferHandler. rewrite lookup_insert_eq.
      rewrite (EnableForUser_idempotent _ _ _ Hen). simpl.
      by rewrite insert_insert_eq.
    + unfold enableOfferHandler. by rewrite Ho, Hen.
  - simpl. unfold enableOfferHandler. by rewrite Ho.
Qed.

Lemma disableOfferHandler_idempotent offers offerName userID :
  (disableOfferHandler offerName userID
     (disableOfferHandler offerName userID offers).2).2
  = (disableOfferHandler offerName userID offers).2.
Proof.
  unfold disableOfferHandler at 2 3.
  destruct (offers !! offerName) as [o|] eqn:Ho.
  - destruct (Offer.DisableForUser userID o) as [o'|] eqn:Hen; simpl.
    + unfold disableOfferHandler. rewrite lookup_insert_eq.
      rewrite (DisableForUser_idempotent _ _ _ Hen). simpl.
      by rewrite insert_insert_eq.
    + unfold disableOfferHandler. by rewrite Ho, Hen.
  - simpl. unfold disableOfferHandler. by rewrite Ho.
Qed.

End handlers.

(** C9.  Enable and disable at an offer that exists in the store but was
    created without an [enabledFor] object: both handlers panic, so the
    reply is neither the 200 of a success nor "not found". *)
Theorem handlers_panic_on_existing_offer :
  store_without_map !! "A" = Some offer_without_map ∧
  (enableOfferHandler "A" "u1" store_without_map).1 = Panicked ∧
  (disableOfferHandler "A" "u1" store_without_map).1 = Panicked ∧
  Panicked ≠ http_NotFound ∧
  (∀ body, Panicked ≠ Written StatusOK body).
Proof. split_and!; try done; by vm_compute. Qed.

(** C10.  Frame of enable and disable.  Whatever the store, the name and
    the user, after either handler every offer under another name is the
    one that was there; and the offer under the name, if there is one, is
    still there with the same identifier, name, description, reward type,
    outcome, minimum amount, minimum milestone, details and merchant
    category, and the same enablement entry for every other user. *)
Theorem enable_disable_frame
    (offers : gmap string Offer.t) (offerName userID : string) :
  let enabled := (enableOfferHandler offerName userID offers).2 in
  let disabled := (disableOfferHandler offerName userID offers).2 in
  (∀ k, k ≠ offerName →
        enabled !! k = offers !! k ∧ disabled !! k = offers !! k) ∧
  (offers !! offerName = None →
     enabled !! offerName = None ∧ disabled !! offerName = None) ∧
  (∀ o, offers !! offerName = Some o →
     (∃ o', enabled !! offerName = Some o' ∧ same_but_entry userID o o') ∧
     (∃ o', disabled !! offerName = Some o' ∧ same_but_entry userID o o')).
Proof.
  simpl. unfold enableOfferHandler, disableOfferHandler.
  destruct (offers !! offerName) as [o|] eqn:Ho.
  - destruct (Offer.EnableForUser userID o) as [oe|] eqn:Hen;
      destruct (Offer.DisableForUser userID o) as [od|] eqn:Hdis; simpl;
      (split_and!;
       [ intros k Hne; by rewrite ?lookup_insert_ne
       | done
       | intros ? [= <-]; rewrite ?lookup_insert_eq, ?Ho; split;
         eexists; (split; [done|]);
         eauto using EnableForUser_same_but_entry,
           DisableForUser_same_but_entry, same_but_entry_refl ]).
  - simpl. split_and!; [done|done|]. by intros o.
Qed.

(** ** Creating offers *)

(** C7.  When the store already holds an offer under the identifier of a
    decoded payload, [createOfferHandler] puts the payload in its place:
    afterwards the store has under that identifier exactly the payload,
    the resulting store is the same whatever the prior offer was (nothing
    of it, the enablement map included, is kept), and every other
    identifier has what it had. *)
Theorem createOffer_replaces
    (offers : gmap string Offer.t) (offer old : Offer.t) :
  offers !! Offer.ID offer = Some old →
  (createOfferHandler (Some offer) offers).1
    = Written StatusOK "Offer created" ∧
  (createOfferHandler (Some offer) offers).2 !! Offer.ID offer = Some offer ∧
  (∀ old', (createOfferHandler (Some offer)
              (<[Offer.ID offer := old']> offers)).2
           = (createOfferHandler (Some offer) offers).2) ∧
  (∀ k, k ≠ Offer.ID offer →
        (createOfferHandler (Some offer) offers).2 !! k = offers !! k).
Proof.
  intros _. simpl. split_and!.
  - done.
  - apply lookup_insert_eq.
  - intros old'. apply insert_insert_eq.
  - intros k Hne. by apply lookup_insert_ne.
Qed.

Lemma createOffer_replaces_witness :
  (createOfferHandler (Some offer_without_map) two_offers).1
    = Written StatusOK "Offer created" ∧
  (createOfferHandler (Some offer_without_map) two_offers).2
    !! Offer.ID offer_without_map = Some offer_without_map ∧
  (∀ old', (createOfferHandler (Some offer_without_map)
              (<[Offer.ID offer_without_map := old']> two_offers)).2
           = (createOfferHandler (Some offer_without_map) two_offers).2) ∧
  (∀ k, k ≠ Offer.ID offer_without_map →
        (createOfferHandler (Some offer_without_map) two_offers).2 !! k
        = two_offers !! k).
Proof.
  apply (createOffer_replaces two_offers offer_without_map offerA).
  reflexivity.
Defined.

(** Replacing [A], which is enabled for [u1], by a payload without an
    enablement map: the store then has the payload, [u1] is no longer
    enabled, and [B] is untouched. *)
Example createOffer_replaces_scenario :
  let offers' := (createOfferHandler (Some offer_without_map) two_offers).2 in
  two_offers !! "A" = Some offerA ∧
  offers' !! "A" = Some offer_without_map ∧
  offers' !! "B" = Some offerB ∧
  GoMap.index (Offer.EnabledFor offerA) "u1" = true ∧
  GoMap.index (Offer.EnabledFor offer_without_map) "u1" = false.
Proof. by vm_compute. Qed.

(** C8, at a payload with the empty identifier.  The handler does not
    look at the identifier: the payload is answered with 200 and stored
    under the empty string, and the store, empty before, is not empty
    after. *)
Lemma createOffer_empty_id_is_stored :
  Offer.ID nameless_offer = EmptyString ∧
  (createOfferHandler (Some nameless_offer) ∅).1
    = Written StatusOK "Offer created" ∧
  (createOfferHandler (Some nameless_offer) ∅).2 !! EmptyString = Some nameless_offer ∧
  (createOfferHandler (Some nameless_offer) ∅).2 ≠ ∅.
Proof.
  split_and!; [done|done|by vm_compute|].
  intros Heq. apply (f_equal (λ m : gmap string Offer.t, m !! EmptyString)) in Heq.
  by vm_compute in Heq.
Qed.

(** C8, as the code has it.  [createOfferHandler] validates nothing about
    the identifier: every decoded payload, the one with the empty
    identifier included, is answered with 200 and stored under its
    identifier; the reply is something else only when decoding failed, and
    then it is 400 and the store is as it was. *)
Theorem createOffer_no_validation (offers : gmap string Offer.t) :
  (∀ offer,
     (createOfferHandler (Some offer) offers).1
       = Written StatusOK "Offer created" ∧
     (createOfferHandler (Some offer) offers).2 !! Offer.ID offer
       = Some offer) ∧
  (∀ body,
     (createOfferHandler body offers).1 ≠ Written StatusOK "Offer created" →
     body = None ∧
     createOfferHandler body offers
       = (http_Error "Invalid offer data" StatusBadRequest, offers)).
Proof.
  split.
  - intros offer. simpl. split; [done|]. apply lookup_insert_eq.
  - intros [offer|]; simpl; [done|]. by intros _.
Qed.

(** * Further properties of the code *)

(** ** More on eligibility and selection *)
Section selection_more.
Variable transaction : Transaction.t.

Abbreviation applicable' := (isOfferApplicable transaction).

Lemma bestOffer_step_skip bestOffer offer :
  applicable' offer = false →
  bestOffer_step transaction bestOffer offer = bestOffer.
Proof. unfold bestOffer_step. by intros ->. Qed.

Lemma loop_filter order bestOffer :
  fold_left (bestOffer_step transaction) order bestOffer
  = fold_left (bestOffer_step transaction)
      (filter (λ o, applicable' o = true) order) bestOffer.
Proof.
  revert bestOffer. induction order as [|offer order IH]; intros bestOffer.
  - done.
  - destruct (applicable' offer) eqn:Happ.
    + rewrite filter_cons_True by done. simpl. apply IH.
    + rewrite filter_cons_False by congruence. simpl.
      rewrite bestOffer_step_skip by done. apply IH.
Qed.

(** Two runs of the loop over the same store end with the same offer
    when any two applicable offers compare strictly one way or the other. *)
Lemma loop_order_independent (offers : gmap string Offer.t) order1 order2 :
  ranges offers order1 →
  ranges offers order2 →
  (∀ k1 k2 o1 o2, k1 ≠ k2 →
     offers !! k1 = Some o1 → offers !! k2 = Some o2 →
     applicable' o1 = true → applicable' o2 = true →
     Float64.gt (Offer.Outcome o1) (Offer.Outcome o2) = true ∨
     Float64.gt (Offer.Outcome o2) (Offer.Outcome o1) = true) →
  fold_left (bestOffer_step transaction) order1 None
  = fold_left (bestOffer_step transaction) order2 None.
Proof.
  intros Hr1 Hr2 Hstrict.
  destruct (fold_left _ order1 None) as [b1|] eqn:H1;
    destruct (fold_left _ order2 None) as [b2|] eqn:H2; [| | |done].
  - destruct (loop_Some _ _ _ H1) as [Hin1 Happ1].
    destruct (loop_Some _ _ _ H2) as [Hin2 Happ2].
    pose proof (proj1 (ranges_elem_of _ _ _ Hr1) Hin1) as [k1 Hk1].
    pose proof (proj1 (ranges_elem_of _ _ _ Hr2) Hin2) as [k2 Hk2].
    destruct (decide (k1 = k2)) as [->|Hne]; [congruence|].
    assert (b2 ∈ order1) as Hb2 by (apply (ranges_elem_of _ _ _ Hr1); eauto).
    assert (b1 ∈ order2) as Hb1 by (apply (ranges_elem_of _ _ _ Hr2); eauto).
    pose proof (loop_unbeaten _ _ _ H1 b2 Hb2 Happ2) as Hn1.
    pose proof (loop_unbeaten _ _ _ H2 b1 Hb1 Happ1) as Hn2.
    destruct (Hstrict k1 k2 b1 b2 Hne Hk1 Hk2 Happ1 Happ2); congruence.
  - destruct (loop_Some _ _ _ H1) as [Hin1 Happ1].
    pose proof (proj1 (ranges_elem_of _ _ _ Hr1) Hin1) as [k1 Hk1].
    pose proof (proj1 (loop_None _ _) H2) as Hnone.
    rewrite Hnone in Happ1; [done|]. apply (ranges_elem_of _ _ _ Hr2). eauto.
  - destruct (loop_Some _ _ _ H2) as [Hin2 Happ2].
    pose proof (proj1 (ranges_elem_of _ _ _ Hr2) Hin2) as [k2 Hk2].
    pose proof (proj1 (loop_None _ _) H1) as Hnone.
    rewrite Hnone in Happ2; [done|]. apply (ranges_elem_of _ _ _ Hr1). eauto.
Qed.

(** Whether the loop ends with an offer does not depend on the order. *)
Lemma loop_is_Some_order (offers : gmap string Offer.t) order :
  ranges offers order →
  is_Some (fold_left (bestOffer_step transaction) order None) ↔
  ∃ k o, offers !! k = Some o ∧ applicable' o = true.
Proof.
  intros Hr. destruct (fold_left _ order None) as [b|] eqn:Hloop.
  - destruct (loop_Some _ _ _ Hloop) as [Hin Happ].
    apply (ranges_elem_of _ _ _ Hr) in Hin as [k Hk]. split; eauto.
  - pose proof (proj1 (loop_None _ _) Hloop) as Hnone. split.
    + by intros [? ?].
    + intros (k & o & Hk & Happ). rewrite Hnone in Happ; [done|].
      apply (ranges_elem_of _ _ _ Hr). eauto.
Qed.

End selection_more.

(** X1.  Offers that are not applicable play no part in the selection:
    the result over a visiting order is the result over the same order
    with the inapplicable offers removed. *)
Theorem ApplyBestOfferForTransaction_filter
    (transaction : Transaction.t) (order : list Offer.t) :
  ApplyBestOfferForTransaction transaction order
  = ApplyBestOfferForTransaction transaction
      (filter (λ o, isOfferApplicable transaction o = true) order).
Proof.
  unfold ApplyBestOfferForTransaction. by rewrite <-loop_filter.
Qed.

(** X2.  When any two applicable offers of the store have outcomes that
    compare strictly one way or the other (no tie, no NaN among several),
    the selection returns the same result for every visiting order. *)
Theorem ApplyBestOfferForTransaction_order_independent
    (transaction : Transaction.t) (offers : gmap string Offer.t)
    (order1 order2 : list Offer.t) :
  ranges offers order1 →
  ranges offers order2 →
  (∀ k1 k2 o1 o2, k1 ≠ k2 →
     offers !! k1 = Some o1 → offers !! k2 = Some o2 →
     isOfferApplicable transaction o1 = true →
     isOfferApplicable transaction o2 = true →
     Float64.gt (Offer.Outcome o1) (Offer.Outcome o2) = true ∨
     Float64.gt (Offer.Outcome o2) (Offer.Outcome o1) = true) →
  ApplyBestOfferForTransaction transaction order1
  = ApplyBestOfferForTransaction transaction order2.
Proof.
  intros Hr1 Hr2 Hstrict. unfold ApplyBestOfferForTransaction.
  by rewrite (loop_order_independent _ offers order1 order2).
Qed.

Lemma ApplyBestOfferForTransaction_order_independent_witness :
  ApplyBestOfferForTransaction (txn "u1" 120 "grocery") [offerA; offerB]
  = ApplyBestOfferForTransaction (txn "u1" 120 "grocery") [offerB; offerA].
Proof.
  apply (ApplyBestOfferForTransaction_order_independent _ two_offers).
  - unfold ranges. reflexivity.
  - unfold ranges.
    change ([offerB; offerA] ≡ₚ [offerA; offerB]). apply perm_swap.
  - intros k1 k2 o1 o2 Hne H1 H2 _ _. unfold two_offers in H1, H2.
    apply lookup_insert_Some in H1 as [[<- <-]|[_ H1]];
      apply lookup_insert_Some in H2 as [[<- <-]|[_ H2]]; try done.
    + apply lookup_insert_Some in H2 as [[<- <-]|[_ H2]];
        [by left|by rewrite lookup_empty in H2].
    + apply lookup_insert_Some in H1 as [[<- <-]|[_ H1]];
        [by right|by rewrite lookup_empty in H1].
    + apply lookup_insert_Some in H1 as [[<- <-]|[_ H1]];
        [|by rewrite lookup_empty in H1].
      apply lookup_insert_Some in H2 as [[<- <-]|[_ H2]];
        [done|by rewrite lookup_empty in H2].
Defined.

(** X3.  When exactly one offer of the store is applicable, it is the
    result, whatever its outcome (a NaN included) and whatever the
    visiting order. *)
Theorem ApplyBestOfferForTransaction_only_applicable
    (transaction : Transaction.t) (offers : gmap string Offer.t)
    (order : list Offer.t) (k : string) (offer : Offer.t) :
  ranges offers order →
  offers !! k = Some offer →
  isOfferApplicable transaction offer = true →
  (∀ k' o, k' ≠ k → offers !! k' = Some o →
     isOfferApplicable transaction o = false) →
  ApplyBestOfferForTransaction transaction order = inl offer.
Proof.
  intros Hr Hk Happ Hothers. unfold ApplyBestOfferForTransaction.
  destruct (fold_left _ order None) as [best|] eqn:Hloop.
  - destruct (loop_Some _ _ _ Hloop) as [Hin Hbest].
    apply (ranges_elem_of _ _ _ Hr) in Hin as [k' Hk'].
    destruct (decide (k' = k)) as [->|Hne]; [congruence|].
    by rewrite (Hothers k' best Hne Hk') in Hbest.
  - pose proof (proj1 (loop_None _ _) Hloop) as Hnone.
    rewrite Hnone in Happ; [done|]. apply (ranges_elem_of _ _ _ Hr). eauto.
Qed.

Lemma ApplyBestOfferForTransaction_only_applicable_witness :
  ApplyBestOfferForTransaction (txn "u1" 60 "grocery")
    (map_to_list two_offers).*2 = inl offerB.
Proof.
  apply (ApplyBestOfferForTransaction_only_applicable _ two_offers _ "B").
  - unfold ranges. reflexivity.
  - reflexivity.
  - reflexivity.
  - intros k' o Hne Hk'. unfold two_offers in Hk'.
    apply lookup_insert_Some in Hk' as [[<- <-]|[_ Hk']]; [done|].
    apply lookup_insert_Some in Hk' as [[<- <-]|[_ Hk']]; [reflexivity|].
    by rewrite lookup_empty in Hk'.
Defined.

(** X4.  Eligibility is monotone in the amount: an offer applicable to a
    transaction is applicable to every transaction of the same customer
    and merchant category with an amount at least as large. *)
Theorem isOfferApplicable_amount_monotone
    (t t' : Transaction.t) (offer : Offer.t) :
  Transaction.CustomerID t' = Transaction.CustomerID t →
  Transaction.MerchantCategory t' = Transaction.MerchantCategory t →
  (Transaction.Amount t ≤ Transaction.Amount t')%Z →
  isOfferApplicable t offer = true →
  isOfferApplicable t' offer = true.
Proof.
  unfold isOfferApplicable. intros -> -> Hle.
  rewrite !andb_true_iff, !Z.leb_le. intros [[Hmin ?] ?].
  split_and!; [lia|done..].
Qed.

Lemma isOfferApplicable_amount_monotone_witness :
  isOfferApplicable (txn "u1" 500 "grocery") offerA = true.
Proof.
  apply (isOfferApplicable_amount_monotone (txn "u1" 100 "grocery"));
    [reflexivity|reflexivity|simpl; lia|reflexivity].
Defined.

(** X5.  [isOfferApplicable] reads the amount, merchant category and
    customer of the transaction, and the minimum amount, merchant category
    and the customer's enablement flag of the offer, and nothing else:
    transactions and offers that agree there get the same answer,
    whatever their identifiers, names, outcome, minimum milestone, entry
    mode, timestamp or other users' flags. *)
Theorem isOfferApplicable_reads
    (t t' : Transaction.t) (o o' : Offer.t) :
  same_for_eligibility_txn t t' →
  same_for_eligibility_offer (Transaction.CustomerID t) o o' →
  isOfferApplicable t o = isOfferApplicable t' o'.
Proof.
  intros (Ha & Hc & Hu) (Hm & Hoc & He). unfold isOfferApplicable.
  by rewrite <-Ha, <-Hc, <-Hu, <-Hm, <-Hoc, <-He.
Qed.

Lemma isOfferApplicable_reads_witness :
  isOfferApplicable (txn "u1" 120 "grocery") offerA
  = isOfferApplicable
      (Transaction.mk "t2" "u1" 120 "m7" "grocery" "swipe" 99)
      (Offer.mk "Z" "Other" "text" "points" S754_nan 100 12 "more"
         (GoMap.Map (<["u2" := true]> {["u1" := true]})) "grocery").
Proof.
  apply isOfferApplicable_reads.
  - unfold same_for_eligibility_txn. simpl. split_and!; reflexivity.
  - unfold same_for_eligibility_offer. simpl. split_and!; reflexivity.
Defined.

(** ** Submitting transactions *)

(** X6.  The reply of [createTransactionHandler] is decided by the body
    and the store alone: 400 exactly when the body does not decode, 404
    exactly when it decodes and no offer of the store is applicable, 200
    exactly when it decodes and some offer is applicable.  The visiting
    order of the map, which may decide which offer is applied, never
    changes the reply. *)
Theorem createTransactionHandler_reply
    (body : option Transaction.t) (offers : gmap string Offer.t)
    (order : list Offer.t) :
  ranges offers order →
  (createTransactionHandler body order
   = http_Error "Invalid transaction data" StatusBadRequest ↔ body = None) ∧
  (createTransactionHandler body order
   = http_Error "No applicable offer found" StatusNotFound ↔
   ∃ t, body = Some t ∧
        ∀ k o, offers !! k = Some o → isOfferApplicable t o = false) ∧
  (createTransactionHandler body order
   = Written StatusOK "Transaction processed" ↔
   ∃ t, body = Some t ∧
        ∃ k o, offers !! k = Some o ∧ isOfferApplicable t o = true) ∧
  (∀ order', ranges offers order' →
     createTransactionHandler body order'
     = createTransactionHandler body order).
Proof.
  intros Hr.
  assert (Hcase : ∀ t ord, ranges offers ord →
    (createTransactionHandler (Some t) ord
     = Written StatusOK "Transaction processed" ∧
     ∃ k o, offers !! k = Some o ∧ isOfferApplicable t o = true) ∨
    (createTransactionHandler (Some t) ord
     = http_Error "No applicable offer found" StatusNotFound ∧
     ∀ k o, offers !! k = Some o → isOfferApplicable t o = false)).
  { intros t ord Hord. unfold createTransactionHandler,
      ApplyBestOfferForTransaction.
    destruct (fold_left _ ord None) as [b|] eqn:Hloop.
    - left. split; [done|].
      apply (loop_is_Some_order t offers ord Hord). by rewrite Hloop.
    - right. split; [done|]. intros k o Hk.
      apply (proj1 (loop_None _ _) Hloop).
      apply (ranges_elem_of _ _ _ Hord). eauto. }
  destruct body as [t|].
  - destruct (Hcase t order Hr) as [[-> Hex]|[-> Hall]].
    + split_and!.
      * split; [by intros ?|by intros ?].
      * split; [by intros ?|].
        intros (t' & [= <-] & Hall). destruct Hex as (k & o & Hk & Happ).
        by rewrite (Hall k o Hk) in Happ.
      * split; [|done]. intros _. by exists t.
      * intros order' Hr'.
        destruct (Hcase t order' Hr') as [[-> _]|[_ Hall]]; [done|].
        destruct Hex as (k & o & Hk & Happ).
        by rewrite (Hall k o Hk) in Happ.
    + split_and!.
      * split; [by intros ?|by intros ?].
      * split; [|done]. intros _. by exists t.
      * split; [by intros ?|].
        intros (t' & [= <-] & k & o & Hk & Happ).
        by rewrite (Hall k o Hk) in Happ.
      * intros order' Hr'.
        destruct (Hcase t order' Hr') as [[_ Hex]|[-> _]]; [|done].
        destruct Hex as (k & o & Hk & Happ).
        by rewrite (Hall k o Hk) in Happ.
  - simpl. split_and!.
    + done.
    + split; [by intros ?|]. by intros (t & ? & _).
    + split; [by intros ?|]. by intros (t & ? & _).
    + done.
Qed.

Lemma createTransactionHandler_reply_witness :
  (createTransactionHandler (Some (txn "u1" 120 "grocery"))
     (map_to_list two_offers).*2
   = http_Error "Invalid transaction data" StatusBadRequest ↔
   Some (txn "u1" 120 "grocery") = None) ∧
  (createTransactionHandler (Some (txn "u1" 120 "grocery"))
     (map_to_list two_offers).*2
   = http_Error "No applicable offer found" StatusNotFound ↔
   ∃ t, Some (txn "u1" 120 "grocery") = Some t ∧
        ∀ k o, two_offers !! k = Some o → isOfferApplicable t o = false) ∧
  (createTransactionHandler (Some (txn "u1" 120 "grocery"))
     (map_to_list two_offers).*2
   = Written StatusOK "Transaction processed" ↔
   ∃ t, Some (txn "u1" 120 "grocery") = Some t ∧
        ∃ k o, two_offers !! k = Some o ∧ isOfferApplicable t o = true) ∧
  (∀ order', ranges two_offers order' →
     createTransactionHandler (Some (txn "u1" 120 "grocery")) order'
     = createTransactionHandler (Some (txn "u1" 120 "grocery"))
         (map_to_list two_offers).*2).
Proof.
  apply (createTransactionHandler_reply _ two_offers).
  unfold ranges. reflexivity.
Defined.

(** ** Enable and disable as functions on the store *)
Section flags.
Implicit Types (offers : gmap string Offer.t) (o : Offer.t).
Implicit Types (v : bool) (u n : string).

Lemma enableOfferHandler_store n u offers :
  (enableOfferHandler n u offers).2 = set_flag true n u offers.
Proof.
  unfold enableOfferHandler, set_flag, Offer.EnableForUser.
  destruct (offers !! n) as [o|]; [|done].
  by destruct (GoMap.assign _ _ _).
Qed.

Lemma disableOfferHandler_store n u offers :
  (disableOfferHandler n u offers).2 = set_flag false n u offers.
Proof.
  unfold disableOfferHandler, set_flag, Offer.DisableForUser.
  destruct (offers !! n) as [o|]; [|done].
  by destruct (GoMap.assign _ _ _).
Qed.

Lemma set_flag_alter v n u offers :
  set_flag v n u offers = alter (flag_offer v u) n offers.
Proof.
  unfold set_flag, flag_offer. apply map_eq. intros k.
  destruct (decide (k = n)) as [->|Hne].
  - rewrite lookup_alter_eq.
    destruct (offers !! n) as [o|] eqn:Ho; simpl; [|done].
    destruct (GoMap.assign _ _ _); [by rewrite lookup_insert_eq|done].
  - rewrite lookup_alter_ne by done.
    destruct (offers !! n) as [o|] eqn:Ho; [|done].
    destruct (GoMap.assign _ _ _); [by rewrite lookup_insert_ne|done].
Qed.

Lemma set_flag_lookup_eq v n u offers :
  set_flag v n u offers !! n = flag_offer v u <$> offers !! n.
Proof. by rewrite set_flag_alter, lookup_alter_eq. Qed.

Lemma set_flag_lookup_ne v n u offers k :
  k ≠ n → set_flag v n u offers !! k = offers !! k.
Proof. intros Hne. by rewrite set_flag_alter, lookup_alter_ne. Qed.

Lemma flag_offer_nil v u o :
  Offer.EnabledFor o = GoMap.Nil → flag_offer v u o = o.
Proof. unfold flag_offer. by intros ->. Qed.

Lemma flag_offer_with v u o : ∃ m, flag_offer v u o = Offer.with_EnabledFor m o.
Proof.
  unfold flag_offer. destruct (GoMap.assign _ _ _) as [m|]; [by exists m|].
  exists (Offer.EnabledFor o). by destruct o.
Qed.

Lemma flag_offer_allocated v u o :
  Offer.EnabledFor (flag_offer v u o) = GoMap.Nil ↔
  Offer.EnabledFor o = GoMap.Nil.
Proof.
  unfold flag_offer. destruct (Offer.EnabledFor o) as [|g] eqn:Hg; simpl.
  - by rewrite Hg.
  - done.
Qed.

Lemma flag_offer_index v u o :
  Offer.EnabledFor o ≠ GoMap.Nil →
  GoMap.index (Offer.EnabledFor (flag_offer v u o)) u = v.
Proof.
  unfold flag_offer. destruct (Offer.EnabledFor o) as [|g]; [done|].
  intros _. simpl. by rewrite lookup_insert_eq.
Qed.

Lemma flag_offer_entry_ne v u o u' :
  u' ≠ u →
  GoMap.entry (Offer.EnabledFor (flag_offer v u o)) u'
  = GoMap.entry (Offer.EnabledFor o) u'.
Proof.
  intros Hne. unfold flag_offer.
  destruct (Offer.EnabledFor o) as [|g] eqn:Hg; simpl; [by rewrite Hg|].
  by rewrite lookup_insert_ne.
Qed.

Lemma flag_offer_index_ne v u o u' :
  u' ≠ u →
  GoMap.index (Offer.EnabledFor (flag_offer v u o)) u'
  = GoMap.index (Offer.EnabledFor o) u'.
Proof.
  intros Hne. by rewrite !index_entry, flag_offer_entry_ne.
Qed.

Lemma flag_offer_absorb v1 v2 u o :
  flag_offer v2 u (flag_offer v1 u o) = flag_offer v2 u o.
Proof.
  unfold flag_offer. destruct o as [? ? ? ? ? ? ? ? [|g] ?]; simpl; [done|].
  unfold Offer.with_EnabledFor. simpl. by rewrite insert_insert_eq.
Qed.

Lemma flag_offer_commute v1 v2 u1 u2 o :
  u1 ≠ u2 →
  flag_offer v1 u1 (flag_offer v2 u2 o) = flag_offer v2 u2 (flag_offer v1 u1 o).
Proof.
  intros Hne. unfold flag_offer.
  destruct o as [? ? ? ? ? ? ? ? [|g] ?]; simpl; [done|].
  unfold Offer.with_EnabledFor. simpl. by rewrite insert_insert_ne.
Qed.

(** What a flag assignment leaves of eligibility: the same answer for
    every transaction of another customer, on every offer. *)
Lemma flag_offer_applicable_ne v u o (t : Transaction.t) :
  Transaction.CustomerID t ≠ u →
  isOfferApplicable t (flag_offer v u o) = isOfferApplicable t o.
Proof.
  intros Hne. unfold isOfferApplicable.
  rewrite flag_offer_index_ne by done.
  destruct (flag_offer_with v u o) as [m ->]. done.
Qed.

Lemma handle_flag (r : request) n u :
  flag_of r = Some (n, u) →
  ∃ v, ∀ offers, handle offers r = set_flag v n u offers.
Proof.
  destruct r; simpl; intros [= <- <-].
  - exists true. intros offers. apply enableOfferHandler_store.
  - exists false. intros offers. apply disableOfferHandler_store.
Qed.

End flags.

Lemma disableOfferHandler_panics
    (offers : gmap string Offer.t) (offerName userID : string) :
  (disableOfferHandler offerName userID offers).1 = Panicked ↔
  ∃ o, offers !! offerName = Some o ∧ Offer.EnabledFor o = GoMap.Nil.
Proof.
  unfold disableOfferHandler. destruct (offers !! offerName) as [o|].
  - destruct (Offer.DisableForUser userID o) eqn:Hdis; simpl.
    + split; [done|]. intros (o' & [= <-] & Hnil).
      apply (DisableForUser_None userID) in Hnil. congruence.
    + split; [|done]. intros _. exists o. split; [done|].
      by apply (DisableForUser_None userID).
  - split; [done|]. by intros (o & ? & _).
Qed.

(** X7.  The three replies of the enable and disable handlers: "not
    found" exactly when no offer is stored under the name; a panic with
    no reply exactly when the offer is there with a nil enablement map;
    200 exactly when the offer is there with an allocated map.  The two
    handlers always fall in the same case. *)
Theorem enable_disable_reply_cases
    (offers : gmap string Offer.t) (offerName userID : string) :
  let enable := (enableOfferHandler offerName userID offers).1 in
  let disable := (disableOfferHandler offerName userID offers).1 in
  (enable = http_NotFound ↔ offers !! offerName = None) ∧
  (disable = http_NotFound ↔ offers !! offerName = None) ∧
  (enable = Panicked ↔
     ∃ o, offers !! offerName = Some o ∧ Offer.EnabledFor o = GoMap.Nil) ∧
  (disable = Panicked ↔
     ∃ o, offers !! offerName = Some o ∧ Offer.EnabledFor o = GoMap.Nil) ∧
  ((∃ body, enable = Written StatusOK body) ↔
     ∃ o, offers !! offerName = Some o ∧ Offer.EnabledFor o ≠ GoMap.Nil) ∧
  ((∃ body, disable = Written StatusOK body) ↔
     ∃ o, offers !! offerName = Some o ∧ Offer.EnabledFor o ≠ GoMap.Nil).
Proof.
  simpl. split_and!.
  - apply enableOfferHandler_not_found.
  - apply disableOfferHandler_not_found.
  - apply enableOfferHandler_panics.
  - apply disableOfferHandler_panics.
  - split.
    + intros [body Hbody]. unfold enableOfferHandler in Hbody.
      destruct (offers !! offerName) as [o|]; [|done].
      exists o. split; [done|]. intros Hnil.
      apply (EnableForUser_None userID) in Hnil. by rewrite Hnil in Hbody.
    + intros (o & Ho & Hmap).
      destruct (enableOfferHandler_success _ _ userID _ Ho Hmap)
        as (body & o' & -> & _). by exists body.
  - split.
    + intros [body Hbody]. unfold disableOfferHandler in Hbody.
      destruct (offers !! offerName) as [o|]; [|done].
      exists o. split; [done|]. intros Hnil.
      apply (DisableForUser_None userID) in Hnil. by rewrite Hnil in Hbody.
    + intros (o & Ho & Hmap).
      destruct (disableOfferHandler_success _ _ userID _ Ho Hmap)
        as (body & o' & -> & _). by exists body.
Qed.

(** X8.  The later of two assignments to the same flag wins: the store
    after enable then disable of a user on an offer is the store after
    the disable alone, and the store after disable then enable is the
    store after the enable alone, whether or not the offer exists or its
    map is allocated. *)
Theorem enable_disable_last_wins
    (offers : gmap string Offer.t) (offerName userID : string) :
  (disableOfferHandler offerName userID
     (enableOfferHandler offerName userID offers).2).2
  = (disableOfferHandler offerName userID offers).2 ∧
  (enableOfferHandler offerName userID
     (disableOfferHandler offerName userID offers).2).2
  = (enableOfferHandler offerName userID offers).2.
Proof.
  rewrite !enableOfferHandler_store, !disableOfferHandler_store.
  rewrite !set_flag_alter, !alter_alter_eq.
  split; apply alter_ext; intros o _; simpl; apply flag_offer_absorb.
Qed.

(** X9.  Two enable or disable requests that do not assign the same flag
    (another offer, or another user) commute: the store is the same
    whichever is handled first. *)
Theorem flag_requests_commute
    (offers : gmap string Offer.t) (r1 r2 : request)
    (n1 u1 n2 u2 : string) :
  flag_of r1 = Some (n1, u1) →
  flag_of r2 = Some (n2, u2) →
  (n1, u1) ≠ (n2, u2) →
  handle (handle offers r1) r2 = handle (handle offers r2) r1.
Proof.
  intros H1 H2 Hne.
  destruct (handle_flag r1 n1 u1 H1) as [v1 E1].
  destruct (handle_flag r2 n2 u2 H2) as [v2 E2].
  rewrite !E1, !E2, !set_flag_alter.
  destruct (decide (n1 = n2)) as [->|Hn].
  - assert (u1 ≠ u2) as Hu by congruence.
    rewrite !alter_alter_eq. apply alter_ext. intros o _. simpl.
    symmetry. by apply flag_offer_commute.
  - apply alter_alter_ne. congruence.
Qed.

Lemma flag_requests_commute_witness :
  handle (handle two_offers (PostEnable "A" "u2")) (PostDisable "A" "u1")
  = handle (handle two_offers (PostDisable "A" "u1")) (PostEnable "A" "u2").
Proof.
  apply (flag_requests_commute two_offers _ _ "A" "u2" "A" "u1").
  - reflexivity.
  - reflexivity.
  - discriminate.
Defined.

(** ** Requests that change the store, then a transaction *)
Section then_transaction.
Implicit Types (offers : gmap string Offer.t) (order : list Offer.t).
Implicit Types (t : Transaction.t).

Lemma createTransactionHandler_200 t offers order k o :
  ranges offers order →
  offers !! k = Some o →
  isOfferApplicable t o = true →
  createTransactionHandler (Some t) order
  = Written StatusOK "Transaction processed".
Proof.
  intros Hr Hk Happ. unfold createTransactionHandler,
    ApplyBestOfferForTransaction.
  destruct (fold_left _ order None) eqn:Hloop; [done|].
  pose proof (proj1 (loop_None _ _) Hloop) as Hnone.
  rewrite Hnone in Happ; [done|]. apply (ranges_elem_of _ _ _ Hr). eauto.
Qed.


Lemma createTransactionHandler_200_inv t offers order :
  ranges offers order →
  createTransactionHandler (Some t) order
  = Written StatusOK "Transaction processed" →
  ∃ k o, offers !! k = Some o ∧ isOfferApplicable t o = true.
Proof.
  intros Hr. unfold createTransactionHandler, ApplyBestOfferForTransaction.
  destruct (fold_left _ order None) as [b|] eqn:Hloop; [|done]. intros _.
  destruct (loop_Some _ _ _ Hloop) as [Hin Happ].
  apply (ranges_elem_of _ _ _ Hr) in Hin as [k Hk]. eauto.
Qed.

(** Two stores with the same applicable offers, key by key, give the
    same reply. *)
Lemma createTransactionHandler_same_reply t offers offers' order order' :
  ranges offers order →
  ranges offers' order' →
  (∀ k, (∃ o, offers !! k = Some o ∧ isOfferApplicable t o = true) ↔
        (∃ o, offers' !! k = Some o ∧ isOfferApplicable t o = true)) →
  createTransactionHandler (Some t) order'
  = createTransactionHandler (Some t) order.
Proof.
  intros Hr Hr' Hsame.
  unfold createTransactionHandler, ApplyBestOfferForTransaction.
  pose proof (loop_is_Some_order t offers order Hr) as H1.
  pose proof (loop_is_Some_order t offers' order' Hr') as H2.
  destruct (fold_left _ order None) as [b|];
    destruct (fold_left _ order' None) as [b'|]; try done.
  - destruct (proj1 H1) as (k & o & Hk & Happ); [done|].
    destruct (proj1 (Hsame k)) as (o' & Hk' & Happ'); [eauto|].
    destruct (proj2 H2) as [? ?]; [eauto|done].
  - destruct (proj1 H2) as (k & o & Hk & Happ); [done|].
    destruct (proj2 (Hsame k)) as (o' & Hk' & Happ'); [eauto|].
    destruct (proj2 H1) as [? ?]; [eauto|done].
Qed.

End then_transaction.

(** X10.  Enable, then buy.  After [enableOfferHandler] on an offer with
    an allocated enablement map, every transaction of that user whose
    amount reaches the offer's minimum and whose merchant category is the
    offer's is answered with 200, in every visiting order of the store. *)
Theorem enable_then_transaction
    (offers : gmap string Offer.t) (offerName userID : string)
    (offer : Offer.t) (t : Transaction.t) (order : list Offer.t) :
  offers !! offerName = Some offer →
  Offer.EnabledFor offer ≠ GoMap.Nil →
  Transaction.CustomerID t = userID →
  (Offer.MinAmount offer ≤ Transaction.Amount t)%Z →
  Transaction.MerchantCategory t = Offer.MerchantCategory offer →
  ranges (enableOfferHandler offerName userID offers).2 order →
  createTransactionHandler (Some t) order
  = Written StatusOK "Transaction processed".
Proof.
  intros Ho Hmap Hu Hmin Hcat Hr.
  rewrite enableOfferHandler_store in Hr.
  apply (createTransactionHandler_200 t _ order offerName
           (flag_offer true userID offer) Hr).
  - by rewrite set_flag_lookup_eq, Ho.
  - unfold isOfferApplicable. rewrite Hu, flag_offer_index by done.
    destruct (flag_offer_with true userID offer) as [m ->]. simpl.
    rewrite andb_true_r, andb_true_iff, Z.leb_le, bool_decide_eq_true.
    by split.
Qed.

Lemma enable_then_transaction_witness :
  createTransactionHandler (Some (txn "u2" 150 "grocery"))
    (map_to_list (enableOfferHandler "A" "u2" two_offers).2).*2
  = Written StatusOK "Transaction processed".
Proof.
  apply (enable_then_transaction two_offers "A" "u2" offerA).
  - reflexivity.
  - discriminate.
  - reflexivity.
  - simpl. lia.
  - reflexivity.
  - unfold ranges. reflexivity.
Defined.



(** X12.  Users do not interfere.  An enable or disable request for one
    user changes nothing for the transactions of another customer: every
    stored offer is applicable to them after the request exactly when it
    was before, and the reply to such a transaction is the same. *)
Theorem flag_request_other_customers
    (offers : gmap string Offer.t) (r : request) (offerName userID : string)
    (t : Transaction.t) (order order' : list Offer.t) :
  flag_of r = Some (offerName, userID) →
  Transaction.CustomerID t ≠ userID →
  ranges offers order →
  ranges (handle offers r) order' →
  (∀ k, (∃ o, offers !! k = Some o ∧ isOfferApplicable t o = true) ↔
        (∃ o, handle offers r !! k = Some o ∧
              isOfferApplicable t o = true)) ∧
  createTransactionHandler (Some t) order'
  = createTransactionHandler (Some t) order.
Proof.
  intros Hflag Hne Hr Hr'.
  destruct (handle_flag r offerName userID Hflag) as [v Hv].
  rewrite Hv in *.
  assert (Hsame : ∀ k,
    (∃ o, offers !! k = Some o ∧ isOfferApplicable t o = true) ↔
    (∃ o, set_flag v offerName userID offers !! k = Some o ∧
          isOfferApplicable t o = true)).
  { intros k. destruct (decide (k = offerName)) as [->|Hk].
    - rewrite set_flag_lookup_eq. split.
      + intros (o & -> & Happ). exists (flag_offer v userID o).
        split; [done|]. by rewrite flag_offer_applicable_ne.
      + intros (o' & Ho' & Happ).
        destruct (offers !! offerName) as [o|]; [|done].
        injection Ho' as <-. exists o. split; [done|].
        by rewrite flag_offer_applicable_ne in Happ.
    - by rewrite set_flag_lookup_ne. }
  split; [done|].
  by apply (createTransactionHandler_same_reply t offers
              (set_flag v offerName userID offers) order order').
Qed.

Lemma flag_request_other_customers_witness :
  (∀ k, (∃ o, two_offers !! k = Some o ∧
              isOfferApplicable (txn "u1" 120 "grocery") o = true) ↔
        (∃ o, handle two_offers (PostDisable "A" "u2") !! k = Some o ∧
              isOfferApplicable (txn "u1" 120 "grocery") o = true)) ∧
  createTransactionHandler (Some (txn "u1" 120 "grocery"))
    (map_to_list (handle two_offers (PostDisable "A" "u2"))).*2
  = createTransactionHandler (Some (txn "u1" 120 "grocery"))
      (map_to_list two_offers).*2.
Proof.
  apply (flag_request_other_customers two_offers _ "A" "u2").
  - reflexivity.
  - discriminate.
  - unfold ranges. reflexivity.
  - unfold ranges. reflexivity.
Defined.

(** X13.  A create under an identifier the store does not have yet takes
    no reward away: a transaction that was answered with 200 before it is
    answered with 200 after it. *)
Theorem create_fresh_keeps_200
    (offers : gmap string Offer.t) (payload : Offer.t)
    (t : Transaction.t) (order order' : list Offer.t) :
  offers !! Offer.ID payload = None →
  ranges offers order →
  ranges (createOfferHandler (Some payload) offers).2 order' →
  createTransactionHandler (Some t) order
  = Written StatusOK "Transaction processed" →
  createTransactionHandler (Some t) order'
  = Written StatusOK "Transaction processed".
Proof.
  intros Hfresh Hr Hr' H200.
  destruct (createTransactionHandler_200_inv t offers order Hr H200)
    as (k & o & Hk & Happ).
  apply (createTransactionHandler_200 t _ order' k o Hr'); [|done].
  simpl. rewrite lookup_insert_ne; [done|].
  intros Heq. rewrite Heq in Hfresh. congruence.
Qed.

Lemma create_fresh_keeps_200_witness :
  createTransactionHandler (Some (txn "u1" 120 "grocery"))
    (map_to_list (createOfferHandler (Some nameless_offer) two_offers).2).*2
  = Written StatusOK "Transaction processed".
Proof.
  apply (create_fresh_keeps_200 two_offers nameless_offer _
           (map_to_list two_offers).*2).
  - reflexivity.
  - unfold ranges. reflexivity.
  - unfold ranges. reflexivity.
  - reflexivity.
Defined.

(** X14.  Creates compose by identifier: two creates with different
    identifiers give the same store in either order; of two creates with
    the same identifier the later one decides the store; and a create
    whose body does not decode changes nothing. *)
Theorem createOffer_compose
    (offers : gmap string Offer.t) (p q : Offer.t) :
  (Offer.ID p ≠ Offer.ID q →
     (createOfferHandler (Some q) (createOfferHandler (Some p) offers).2).2
     = (createOfferHandler (Some p)
          (createOfferHandler (Some q) offers).2).2) ∧
  (Offer.ID p = Offer.ID q →
     (createOfferHandler (Some q) (createOfferHandler (Some p) offers).2).2
     = (createOfferHandler (Some q) offers).2) ∧
  (createOfferHandler (Some q) (createOfferHandler None offers).2).2
  = (createOfferHandler (Some q) offers).2.
Proof.
  simpl. split_and!.
  - intros Hne. by apply insert_insert_ne.
  - intros ->. apply insert_insert_eq.
  - done.
Qed.

(** ** The server as a sequence of requests *)
Section server.
Implicit Types (offers : gmap string Offer.t) (r : request).
Implicit Types (requests : list request) (k : string).

Lemma serve_from_cons offers r requests :
  serve_from offers (r :: requests) = serve_from (handle offers r) requests.
Proof. done. Qed.

Lemma serve_from_snoc offers requests r :
  serve_from offers (requests ++ [r]) = handle (serve_from offers requests) r.
Proof. unfold serve_from. by rewrite fold_left_app. Qed.

(** A request is a create that decoded, an assignment to one flag, or a
    read. *)
Lemma handle_cases offers r :
  (∃ p, r = PostCreateOffer (Some p) ∧ created_ID r = Some (Offer.ID p) ∧
        handle offers r = <[Offer.ID p := p]> offers) ∨
  (created_ID r = None ∧
   ∃ v n u, flag_of r = Some (n, u) ∧
            handle offers r = alter (flag_offer v u) n offers) ∨
  (created_ID r = None ∧ flag_of r = None ∧ handle offers r = offers).
Proof.
  destruct r as [n u|n u| |[p|]|body]; simpl.
  - right. left. split; [done|]. exists true, n, u.
    by rewrite enableOfferHandler_store, set_flag_alter.
  - right. left. split; [done|]. exists false, n, u.
    by rewrite disableOfferHandler_store, set_flag_alter.
  - by right; right.
  - left. by exists p.
  - by right; right.
  - by right; right.
Qed.

Lemma created_IDs_cons r requests :
  created_IDs (r :: requests)
  = match created_ID r with
    | Some k => {[k]} ∪ created_IDs requests
    | None => created_IDs requests
    end.
Proof. unfold created_IDs. simpl. by destruct (created_ID r). Qed.

Lemma created_IDs_nil : created_IDs [] = ∅.
Proof. done. Qed.

Lemma not_created_cons r requests k :
  k ∉ created_IDs (r :: requests) →
  created_ID r ≠ Some k ∧ k ∉ created_IDs requests.
Proof.
  rewrite created_IDs_cons. destruct (created_ID r) as [k'|]; [|done].
  rewrite not_elem_of_union, not_elem_of_singleton. intros [Hne Hrest].
  split; [congruence|done].
Qed.

(** Membership in [created_IDs] is membership in the list of created
    identifiers, which evaluates on a given sequence. *)
Lemma not_created_list requests k :
  bool_decide (k ∉ omap created_ID requests) = true →
  k ∉ created_IDs requests.
Proof.
  intros H%bool_decide_eq_true. unfold created_IDs.
  by rewrite elem_of_list_to_set.
Qed.

Lemma handle_keys_are_IDs offers r :
  keys_are_IDs offers → keys_are_IDs (handle offers r).
Proof.
  unfold keys_are_IDs. intros Hinv.
  destruct (handle_cases offers r)
    as [(p & _ & _ & ->)|[(_ & v & n & u & _ & ->)|(_ & _ & ->)]].
  - by apply map_Forall_insert_2.
  - intros k o. rewrite lookup_alter. case_decide as Hk.
    + subst k. destruct (offers !! n) as [o0|] eqn:Ho; [|done].
      simpl. intros [= <-]. destruct (flag_offer_with v u o0) as [m ->].
      simpl. by apply (Hinv n o0).
    + apply Hinv.
  - done.
Qed.

Lemma handle_dom offers r :
  dom (handle offers r)
  = match created_ID r with
    | Some k => {[k]} ∪ dom offers
    | None => dom offers
    end.
Proof.
  destruct (handle_cases offers r)
    as [(p & _ & -> & ->)|[(-> & v & n & u & _ & ->)|(-> & _ & ->)]].
  - apply dom_insert_L.
  - apply dom_alter_L.
  - done.
Qed.

(** A request that is not a create under [k] leaves the offer under [k]
    as it is but for its enablement map, and leaves it untouched when
    that map is nil. *)
Lemma handle_keeps offers r k o :
  created_ID r ≠ Some k →
  offers !! k = Some o →
  ∃ o', handle offers r !! k = Some o' ∧
        (∃ m, o' = Offer.with_EnabledFor m o) ∧
        (Offer.EnabledFor o = GoMap.Nil → o' = o) ∧
        (∀ u, flag_of r ≠ Some (k, u) →
              GoMap.entry (Offer.EnabledFor o') u
              = GoMap.entry (Offer.EnabledFor o) u).
Proof.
  intros Hnot Ho.
  assert (∃ m, o = Offer.with_EnabledFor m o) as Hself.
  { exists (Offer.EnabledFor o). by destruct o. }
  destruct (handle_cases offers r)
    as [(p & _ & Hid & ->)|[(_ & v & n & u & Hflag & ->)|(_ & _ & ->)]].
  - rewrite lookup_insert_ne by congruence. exists o. by split_and!.
  - destruct (decide (n = k)) as [->|Hne].
    + rewrite lookup_alter_eq, Ho. simpl. eexists. split; [done|].
      split_and!.
      * apply flag_offer_with.
      * apply flag_offer_nil.
      * intros u' Hu'. apply flag_offer_entry_ne. congruence.
    + rewrite lookup_alter_ne by done. exists o. by split_and!.
  - exists o. by split_and!.
Qed.

Lemma handle_maps_allocated offers r :
  (∀ p, r = PostCreateOffer (Some p) → Offer.EnabledFor p ≠ GoMap.Nil) →
  maps_allocated offers → maps_allocated (handle offers r).
Proof.
  unfold maps_allocated. intros Hp Hinv.
  destruct (handle_cases offers r)
    as [(p & Hr & _ & ->)|[(_ & v & n & u & _ & ->)|(_ & _ & ->)]].
  - apply map_Forall_insert_2; [by apply Hp|done].
  - intros k o. rewrite lookup_alter. case_decide as Hk.
    + subst k. destruct (offers !! n) as [o0|] eqn:Ho; [|done].
      simpl. intros [= <-]. rewrite flag_offer_allocated.
      by apply (Hinv n o0).
    + apply Hinv.
  - done.
Qed.

Lemma serve_from_keys_are_IDs offers requests :
  keys_are_IDs offers → keys_are_IDs (serve_from offers requests).
Proof.
  revert offers. induction requests as [|r requests IH]; intros offers Hinv.
  - done.
  - rewrite serve_from_cons. apply IH. by apply handle_keys_are_IDs.
Qed.

End server.

(** X15.  Every offer is stored under its own identifier: whatever
    requests the server has handled since [main] made the empty map, an
    offer found under a key has that key as its [ID]. *)
Theorem serve_keys_are_IDs (requests : list request) :
  keys_are_IDs (serve requests).
Proof.
  unfold serve. apply serve_from_keys_are_IDs.
  unfold keys_are_IDs. apply map_Forall_empty.
Qed.

(** X16.  Offers are never removed and appear only through creates: after
    any sequence of requests the identifiers in the store are the ones it
    started with together with the identifiers of the create payloads
    that decoded. *)
Theorem serve_from_dom
    (offers : gmap string Offer.t) (requests : list request) :
  dom (serve_from offers requests) = dom offers ∪ created_IDs requests.
Proof.
  revert offers. induction requests as [|r requests IH]; intros offers.
  - by rewrite created_IDs_nil, (right_id_L ∅ (∪)).
  - rewrite serve_from_cons, IH, handle_dom, created_IDs_cons.
    destruct (created_ID r) as [k|]; [|done].
    by rewrite (comm_L (∪) {[k]} (dom offers)), (assoc_L (∪)).
Qed.

(** X17.  An offer stored with a nil enablement map stays as it is, and
    applicable to no transaction, through every sequence of requests that
    has no create under its key: enable and disable requests cannot
    repair it. *)
Theorem nil_map_offer_persists
    (offers : gmap string Offer.t) (requests : list request)
    (k : string) (offer : Offer.t) :
  offers !! k = Some offer →
  Offer.EnabledFor offer = GoMap.Nil →
  k ∉ created_IDs requests →
  serve_from offers requests !! k = Some offer ∧
  (∀ t, isOfferApplicable t offer = false).
Proof.
  intros Ho Hnil Hk. split.
  - revert offers Ho Hk.
    induction requests as [|r requests IH]; intros offers Ho Hk; [done|].
    rewrite serve_from_cons.
    destruct (not_created_cons _ _ _ Hk) as [Hr Hrest].
    destruct (handle_keeps offers r k offer Hr Ho) as (o' & Ho' & _ & Hsame & _).
    rewrite (Hsame Hnil) in Ho'. by apply IH.
  - intros t. unfold isOfferApplicable. rewrite Hnil. simpl.
    apply andb_false_r.
Qed.

Lemma nil_map_offer_persists_witness :
  serve_from store_without_map
    [PostEnable "A" "u1"; PostCreateOffer (Some offerB);
     PostDisable "A" "u1"; GetOffers] !! "A" = Some offer_without_map ∧
  (∀ t, isOfferApplicable t offer_without_map = false).
Proof.
  apply nil_map_offer_persists.
  - reflexivity.
  - reflexivity.
  - apply not_created_list. reflexivity.
Defined.

(** X18.  Between two creates under its key an offer keeps its data: after
    any sequence of requests with no create under the key, the offer found
    there is the earlier one in every field but the enablement map; and
    the entry of a user in that map is the earlier one when no request of
    the sequence was an enable or disable of that user on that offer. *)
Theorem offer_persists_between_creates
    (offers : gmap string Offer.t) (requests : list request)
    (k : string) (offer : Offer.t) :
  offers !! k = Some offer →
  k ∉ created_IDs requests →
  ∃ m, serve_from offers requests !! k
       = Some (Offer.with_EnabledFor m offer) ∧
       ∀ u, Forall (λ r, flag_of r ≠ Some (k, u)) requests →
            GoMap.entry m u = GoMap.entry (Offer.EnabledFor offer) u.
Proof.
  revert offers offer.
  induction requests as [|r requests IH]; intros offers offer Ho Hk.
  - exists (Offer.EnabledFor offer). split; [|done].
    simpl. rewrite Ho. by destruct offer.
  - rewrite serve_from_cons.
    destruct (not_created_cons _ _ _ Hk) as [Hr Hrest].
    destruct (handle_keeps offers r k offer Hr Ho)
      as (o' & Ho' & [m' ->] & _ & Hentry).
    destruct (IH _ _ Ho' Hrest) as (m & Hm & Hrestentry).
    exists m. split; [by rewrite Hm|].
    intros u Hall. apply Forall_cons in Hall as [Hru Hall].
    rewrite (Hrestentry u Hall). by apply (Hentry u).
Qed.

Lemma offer_persists_between_creates_witness :
  ∃ m, serve_from two_offers
         [PostDisable "A" "u1"; PostCreateOffer (Some offerB);
          PostEnable "A" "u2"; PostCreateTransaction None] !! "A"
       = Some (Offer.with_EnabledFor m offerA) ∧
       ∀ u, Forall (λ r, flag_of r ≠ Some ("A", u))
              [PostDisable "A" "u1"; PostCreateOffer (Some offerB);
               PostEnable "A" "u2"; PostCreateTransaction None] →
            GoMap.entry m u = GoMap.entry (Offer.EnabledFor offerA) u.
Proof.
  apply offer_persists_between_creates.
  - reflexivity.
  - apply not_created_list. reflexivity.
Defined.

(** X19.  When every create payload comes with an enablement object, no
    enable or disable request ever panics: every offer the server holds
    after such a sequence of requests has an allocated map, and both
    handlers answer 200 or "not found". *)
Theorem serve_never_panics (requests : list request) :
  Forall (λ r, ∀ p, r = PostCreateOffer (Some p) →
                    Offer.EnabledFor p ≠ GoMap.Nil) requests →
  maps_allocated (serve requests) ∧
  (∀ offerName userID,
     (enableOfferHandler offerName userID (serve requests)).1 ≠ Panicked ∧
     (disableOfferHandler offerName userID (serve requests)).1 ≠ Panicked).
Proof.
  intros Hall.
  assert (maps_allocated (serve requests)) as Hinv.
  { unfold serve.
    assert (maps_allocated (∅ : gmap string Offer.t)) as Hempty
      by apply map_Forall_empty.
    revert Hempty. generalize (∅ : gmap string Offer.t).
    induction Hall as [|r requests Hr Hall IH]; intros offers Hoffers.
    - done.
    - rewrite serve_from_cons. apply IH. by apply handle_maps_allocated. }
  split; [done|]. intros n u. split.
  - intros (o & Ho & Hnil)%enableOfferHandler_panics.
    by apply (Hinv n o Ho).
  - intros (o & Ho & Hnil)%disableOfferHandler_panics.
    by apply (Hinv n o Ho).
Qed.

Lemma serve_never_panics_witness :
  maps_allocated
    (serve [PostCreateOffer (Some offerA); PostEnable "A" "u2"]) ∧
  (∀ offerName userID,
     (enableOfferHandler offerName userID
        (serve [PostCreateOffer (Some offerA); PostEnable "A" "u2"])).1
     ≠ Panicked ∧
     (disableOfferHandler offerName userID
        (serve [PostCreateOffer (Some offerA); PostEnable "A" "u2"])).1
     ≠ Panicked).
Proof.
  apply serve_never_panics.
  repeat constructor.
  - intros p [= <-]. discriminate.
  - intros p Hp. discriminate Hp.
Defined.

(** ** Listing the offers *)

Lemma offersDetailsHandler_order (order : list Offer.t) :
  offersDetailsHandler order = order.
Proof.
  unfold offersDetailsHandler.
  assert (∀ allOffers : list Offer.t,
    fold_left (λ allOffers offer, allOffers ++ [offer]) order allOffers
    = allOffers ++ order) as Hgen.
  { induction order as [|offer order IH]; intros allOffers; simpl.
    - by rewrite app_nil_r.
    - by rewrite IH, <-app_assoc. }
  apply Hgen.
Qed.

(** X20.  The slice [offersDetailsHandler] encodes is a snapshot of the
    whole store: it holds exactly the offers stored, each stored entry
    once, so it has as many elements as the store has keys, and it is
    the empty slice for the empty store. *)
Theorem offersDetailsHandler_snapshot
    (offers : gmap string Offer.t) (order : list Offer.t) :
  ranges offers order →
  offersDetailsHandler order ≡ₚ (map_to_list offers).*2 ∧
  length (offersDetailsHandler order) = size offers ∧
  (∀ o, o ∈ offersDetailsHandler order ↔ ∃ k, offers !! k = Some o) ∧
  (offers = ∅ → offersDetailsHandler order = []).
Proof.
  intros Hr. rewrite offersDetailsHandler_order. split_and!.
  - done.
  - unfold ranges in Hr. by rewrite Hr, length_fmap, length_map_to_list.
  - intros o. by apply ranges_elem_of.
  - intros ->. unfold ranges in Hr. rewrite map_to_list_empty in Hr.
    by apply Permutation_nil_r in Hr.
Qed.

Lemma offersDetailsHandler_snapshot_witness :
  offersDetailsHandler [offerB; offerA] ≡ₚ (map_to_list two_offers).*2 ∧
  length (offersDetailsHandler [offerB; offerA]) = size two_offers ∧
  (∀ o, o ∈ offersDetailsHandler [offerB; offerA] ↔
        ∃ k, two_offers !! k = Some o) ∧
  (two_offers = ∅ → offersDetailsHandler [offerB; offerA] = []).
Proof.
  apply offersDetailsHandler_snapshot.
  unfold ranges. change ([offerB; offerA] ≡ₚ [offerA; offerB]).
  apply perm_swap.
Defined.

(** X21.  The server [main] starts, before any create: the listing is
    empty, every transaction that decodes is answered with 404, and every
    enable or disable is answered "not found" and leaves the store
    empty. *)
Theorem fresh_server (order : list Offer.t) :
  ranges (serve []) order →
  offersDetailsHandler order = [] ∧
  (∀ t, createTransactionHandler (Some t) order
        = http_Error "No applicable offer found" StatusNotFound) ∧
  (∀ offerName userID,
     enableOfferHandler offerName userID (serve []) = (http_NotFound, ∅) ∧
     disableOfferHandler offerName userID (serve []) = (http_NotFound, ∅)).
Proof.
  intros Hr. unfold ranges, serve in Hr. simpl in Hr.
  rewrite map_to_list_empty in Hr. apply Permutation_nil_r in Hr as ->.
  split_and!; [done|done|]. intros n u.
  unfold enableOfferHandler, disableOfferHandler, serve. simpl.
  by rewrite lookup_empty.
Qed.

Lemma fresh_server_witness :
  offersDetailsHandler [] = [] ∧
  (∀ t, createTransactionHandler (Some t) []
        = http_Error "No applicable offer found" StatusNotFound) ∧
  (∀ offerName userID,
     enableOfferHandler offerName userID (serve []) = (http_NotFound, ∅) ∧
     disableOfferHandler offerName userID (serve []) = (http_NotFound, ∅)).
Proof.
  apply fresh_server. unfold ranges. reflexivity.
Defined.

(** ** What the selection guarantees for all outcomes *)

(** X22.  Whatever the outcomes are, NaN included: an offer the selection
    returns is an offer of the store, is applicable, and no applicable
    offer of the store has an outcome that compares strictly greater than
    its own. *)
Theorem ApplyBestOfferForTransaction_unbeaten
    (transaction : Transaction.t) (offers : gmap string Offer.t)
    (order : list Offer.t) (best : Offer.t) :
  ranges offers order →
  ApplyBestOfferForTransaction transaction order = inl best →
  (∃ k, offers !! k = Some best) ∧
  isOfferApplicable transaction best = true ∧
  (∀ k o, offers !! k = Some o → isOfferApplicable transaction o = true →
     Float64.gt (Offer.Outcome o) (Offer.Outcome best) = false).
Proof.
  intros Hr. unfold ApplyBestOfferForTransaction.
  destruct (fold_left _ order None) as [b|] eqn:Hloop; [|done].
  intros [= <-]. destruct (loop_Some _ _ _ Hloop) as [Hin Happ].
  split_and!.
  - by apply (ranges_elem_of _ _ _ Hr).
  - done.
  - intros k o Hk Ho. apply (loop_unbeaten _ _ _ Hloop); [|done].
    apply (ranges_elem_of _ _ _ Hr). eauto.
Qed.

Lemma ApplyBestOfferForTransaction_unbeaten_witness :
  (∃ k, two_offers !! k = Some offerB) ∧
  isOfferApplicable (txn "u1" 120 "grocery") offerB = true ∧
  (∀ k o, two_offers !! k = Some o →
     isOfferApplicable (txn "u1" 120 "grocery") o = true →
     Float64.gt (Offer.Outcome o) (Offer.Outcome offerB) = false).
Proof.
  apply (ApplyBestOfferForTransaction_unbeaten _ two_offers
           (map_to_list two_offers).*2).
  - unfold ranges. reflexivity.
  - reflexivity.
Defined.
